(** * Secure filesystem server: path sandbox and patch engine

    A shallow embedding of [src/index.js]: [validatePath], the
    [applyFileEdits] patch engine, the exclusion test of [searchFiles] and
    the [copy_file] / [move_file] / [edit_file] handlers, followed by
    the properties of the specification that concern them.

    JavaScript strings are sequences of UTF-16 code units; they are modelled
    as lists of code units ([list N]).  The Node.js [path] and [fs/promises]
    modules and the [diff] and [minimatch] packages are not part of the
    program: [path], [fs/promises] and [diff] appear as records of
    operations ([PathApi], [FsApi], [Packages]) and [minimatch] as a function
    argument.  A POSIX instance of [PathApi] and an in-memory instance of
    [FsApi] are given for the concrete runs. *)

From Stdlib Require Import String Ascii ZArith NArith Lia.
From stdpp Require Import base option list gmap.
From Equations Require Import Equations.

Set Default Proof Using "Type".
Local Open Scope N_scope.
Local Open Scope nat_scope.

(** ** Strings *)

Abbreviation str := (list N) (only parsing).

(** A string literal of the source, as code units. *)
Definition lit (s : string) : list N := N_of_ascii <$> list_ascii_of_string s.
Arguments lit s%_string.

Module Chr.
Definition LF : N := 10.
Definition CR : N := 13.
Definition space : N := 32.
Definition dollar : N := 36.
Definition amp : N := 38.
Definition quote : N := 39.
Definition star : N := 42.
Definition slash : N := 47.
Definition backtick : N := 96.
Definition tilde : N := 126.
End Chr.

(** [s.startsWith(prefix)] *)
Fixpoint startsWith (s prefix : str) {struct prefix} : bool :=
  match prefix, s with
  | [], _ => true
  | p :: prefix', c :: s' => (c =? p)%N && startsWith s' prefix'
  | _ :: _, [] => false
  end.

(** [s.indexOf(pat)], with [None] for -1. *)
Fixpoint indexOf (s pat : str) {struct s} : option nat :=
  if startsWith s pat then Some 0
  else match s with
       | [] => None
       | _ :: s' => S <$> indexOf s' pat
       end.

(** [s.includes(pat)] *)
Definition includes (s pat : str) : bool :=
  match indexOf s pat with Some _ => true | None => false end.

(** The replacement text of [String.prototype.replace] when the pattern is a
    string (ECMAScript GetSubstitution with no captures): [$$] is a dollar
    sign, [$&] the matched text, [$`] the text before the match, [$'] the
    text after it; any other [$] stands for itself. *)
Fixpoint getSubstitution (matched before after replacement : str) : str :=
  match replacement with
  | [] => []
  | c :: rest =>
      if (c =? Chr.dollar)%N then
        match rest with
        | [] => [c]
        | d :: rest' =>
            if (d =? Chr.dollar)%N then
              Chr.dollar :: getSubstitution matched before after rest'
            else if (d =? Chr.amp)%N then
              matched ++ getSubstitution matched before after rest'
            else if (d =? Chr.backtick)%N then
              before ++ getSubstitution matched before after rest'
            else if (d =? Chr.quote)%N then
              after ++ getSubstitution matched before after rest'
            else c :: getSubstitution matched before after rest
        end
      else c :: getSubstitution matched before after rest
  end.

(** [s.replace(pat, replacement)] with a string pattern: only the first
    occurrence is replaced. *)
Definition replace (s pat replacement : str) : str :=
  match indexOf s pat with
  | None => s
  | Some i =>
      let before := take i s in
      let after := drop (i + length pat) s in
      before ++ getSubstitution pat before after replacement ++ after
  end.

(** [s.split(sep)] for a one-character separator; never empty. *)
Fixpoint split (sep : N) (s : str) : list str :=
  match s with
  | [] => [[]]
  | c :: s' =>
      if (c =? sep)%N then [] :: split sep s'
      else match split sep s' with
           | l :: ls => (c :: l) :: ls
           | [] => [[c]]
           end
  end.

(** [lines.join(sep)] *)
Fixpoint join (sep : str) (lines : list str) : str :=
  match lines with
  | [] => []
  | [l] => l
  | l :: ls => l ++ sep ++ join sep ls
  end.

(** White space and line terminators: what [\s] matches and what [trim]
    removes. *)
Definition isWhiteSpace (c : N) : bool :=
  ((9 <=? c) && (c <=? 13) || (c =? 32) || (c =? 160) || (c =? 5760)
   || (8192 <=? c) && (c <=? 8202) || (c =? 8232) || (c =? 8233)
   || (c =? 8239) || (c =? 8287) || (c =? 12288) || (c =? 65279))%N.

(** [s.match(/^\s*/)[0]] *)
Fixpoint leadingWhitespace (s : str) : str :=
  match s with
  | c :: s' => if isWhiteSpace c then c :: leadingWhitespace s' else []
  | [] => []
  end.

(** [s.trimStart()] *)
Fixpoint trimStart (s : str) : str :=
  match s with
  | c :: s' => if isWhiteSpace c then trimStart s' else s
  | [] => []
  end.

Definition trimEnd (s : str) : str := reverse (trimStart (reverse s)).

(** [s.trim()] *)
Definition trim (s : str) : str := trimEnd (trimStart s).

(** ** Line endings *)

(** [text.replace(/\r\n/g, '\n')] *)
Fixpoint normalizeLineEndings (text : str) : str :=
  match text with
  | [] => []
  | c :: rest =>
      match rest with
      | d :: rest' =>
          if (c =? Chr.CR)%N && (d =? Chr.LF)%N
          then Chr.LF :: normalizeLineEndings rest'
          else c :: normalizeLineEndings rest
      | [] => [c]
      end
  end.

(** ** The fence of the returned diff *)

Definition inspect {A : Type} (a : A) : {b : A | a = b} := exist _ a eq_refl.

(** [let numBackticks = n; while (diff.includes('`'.repeat(numBackticks)))
    numBackticks++;] *)
Equations numBackticksFrom (diff : str) (n : nat) : nat
  by wf (S (length diff) - n) lt :=
  numBackticksFrom diff n with inspect (includes diff (repeat Chr.backtick n)) := {
    | exist _ true _ => numBackticksFrom diff (S n)
    | exist _ false _ => n }.
Next Obligation.
  (* a string that contains n backticks has at least n characters *)
  assert (Hprefix : forall (p s : list N), startsWith s p = true -> length p <= length s).
  { induction p as [|c p IH]; intros [|d s]; simpl; try lia; try discriminate.
    intros [_ H]%andb_prop. specialize (IH _ H). lia. }
  assert (Hindex : forall (s p : list N) i, indexOf s p = Some i -> length p <= length s).
  { induction s as [|c s IH]; intros p i; cbn [indexOf].
    - destruct (startsWith [] p) eqn:E; [|discriminate]. intros _. now apply Hprefix.
    - destruct (startsWith (c :: s) p) eqn:E; [intros _; now apply Hprefix|].
      destruct (indexOf s p) as [j|] eqn:Ej; [|discriminate].
      intros _. specialize (IH _ _ Ej). simpl. lia. }
  unfold includes in e.
  destruct (indexOf diff (repeat Chr.backtick n)) as [i|] eqn:E; [|discriminate].
  apply Hindex in E. rewrite repeat_length in E. lia.
Qed.

Definition fence (diff : str) : str := repeat Chr.backtick (numBackticksFrom diff 3).

(** [`${fence}diff\n${diff}${fence}\n\n`] *)
Definition formatDiff (diff : str) : str :=
  fence diff ++ lit "diff" ++ [Chr.LF] ++ diff ++ fence diff ++ [Chr.LF; Chr.LF].

(** ** Errors and effects *)

(** [new Error(message)]; an error of the operating system also carries a
    message. *)
Record error := Error { message : str }.

Inductive result (A : Type) :=
| Ok (value : A)
| Throw (e : error).
Arguments Ok {A} value.
Arguments Throw {A} e.

#[global] Instance result_ret : MRet result := fun A a => Ok a.
#[global] Instance result_bind : MBind result :=
  fun A B f r => match r with Ok a => f a | Throw e => Throw e end.

(** [try { body } catch (error) { handler }] on a computation without
    effects. *)
Definition tryCatch {A : Type} (body : result A) (handler : error -> result A) : result A :=
  match body with
  | Ok a => Ok a
  | Throw e => handler e
  end.

(** The failures of the specification, as the messages the program throws. *)
Definition isAccessDenied (e : error) : bool :=
  startsWith (message e) (lit "Access denied").

Definition ParentUnreachable (parentDir : str) : error :=
  Error (lit "Parent directory does not exist: " ++ parentDir).

Definition AlreadyExists (destination : str) : error :=
  Error (lit "Destination already exists: " ++ destination).

Definition EditNotFound (oldText : str) : error :=
  Error (lit "Could not find exact match for edit:" ++ [Chr.LF] ++ oldText).

(** ** The platform *)

(** The part of Node's [path], [os] and [process] the program calls. *)
Record PathApi := {
  path_normalize : str -> str;
  path_resolve : list str -> str;
  path_join : list str -> str;
  path_isAbsolute : str -> bool;
  path_dirname : str -> str;
  os_homedir : str;
  process_cwd : str;
}.

(** The part of [fs/promises] the program calls, over a state of the disk
    [St].  A rejected promise is a [Throw]; queries leave the disk as it
    is. *)
Record FsApi (St : Type) := {
  fs_realpath : str -> St -> result str;
  fs_access : str -> St -> result unit;
  fs_stat_isDirectory : str -> St -> result bool;
  fs_readFile : str -> St -> result str;
  fs_writeFile : str -> str -> St -> St * result unit;
  fs_copyFile : str -> str -> St -> St * result unit;
  fs_cp_recursive : str -> str -> St -> St * result unit;
  fs_rename : str -> str -> St -> St * result unit;
}.
Arguments fs_realpath {St}.
Arguments fs_access {St}.
Arguments fs_stat_isDirectory {St}.
Arguments fs_readFile {St}.
Arguments fs_writeFile {St}.
Arguments fs_copyFile {St}.
Arguments fs_cp_recursive {St}.
Arguments fs_rename {St}.

(** [createTwoFilesPatch] of the [diff] package. *)
Record Packages := {
  createTwoFilesPatch : str -> str -> str -> str -> str -> str -> str;
}.

(** An [async] function: the disk is threaded through, a rejection keeps the
    effects that came before it. *)
Definition Async (St A : Type) : Type := St -> St * result A.

Section AsyncMonad.
Context {St : Type}.

Definition aret {A} (a : A) : Async St A := fun st => (st, Ok a).

Definition abind {A B} (m : Async St A) (k : A -> Async St B) : Async St B :=
  fun st => match m st with
            | (st', Ok a) => k a st'
            | (st', Throw e) => (st', Throw e)
            end.

Definition athrow {A} (e : error) : Async St A := fun st => (st, Throw e).

(** [await] of a query. *)
Definition query {A} (q : St -> result A) : Async St A := fun st => (st, q st).

(** [try { body } catch (error) { handler }] *)
Definition atryCatch {A} (body : Async St A) (handler : error -> Async St A) : Async St A :=
  fun st => match body st with
            | (st', Ok a) => (st', Ok a)
            | (st', Throw e) => handler e st'
            end.
End AsyncMonad.

Notation "x <- m ;; k" := (abind m (fun x => k))
  (at level 100, m at next level, right associativity, only parsing).
Notation "m ;;; k" := (abind m (fun _ => k))
  (at level 100, right associativity, only parsing).

(** ** The patch engine *)

Record Edit := { oldText : str; newText : str }.

(** [oldLines.every((oldLine, j) => oldLine.trim() === potentialMatch[j].trim())];
    the slice always has as many lines as [oldLines]. *)
Fixpoint isMatch (oldLines potentialMatch : list str) : bool :=
  match oldLines, potentialMatch with
  | [], _ => true
  | oldLine :: oldLines', contentLine :: potentialMatch' =>
      bool_decide (trim oldLine = trim contentLine) && isMatch oldLines' potentialMatch'
  | _ :: _, [] => false
  end.

(** [lines[j]?.match(/^\s*/)?.[0] || ''] *)
Definition indentOf (line : option str) : str :=
  match line with
  | Some l => leadingWhitespace l
  | None => []
  end.

Definition nonEmpty (s : str) : bool :=
  match s with [] => false | _ :: _ => true end.

(** The callback of [normalizedNew.split('\n').map((line, j) => ...)]. *)
Definition reindent (originalIndent : str) (oldLines : list str) (j : nat) (line : str) : str :=
  match j with
  | 0 => originalIndent ++ trimStart line
  | S _ =>
      let oldIndent := indentOf (oldLines !! j) in
      let newIndent := leadingWhitespace line in
      if nonEmpty oldIndent && nonEmpty newIndent then
        let relativeIndent := (Z.of_nat (length newIndent) - Z.of_nat (length oldIndent))%Z in
        originalIndent ++ repeat Chr.space (Z.to_nat (Z.max 0 relativeIndent)) ++ trimStart line
      else line
  end.

(** The replacement lines for the window found at line [i]. *)
Definition newLinesFor (contentLines oldLines : list str) (normalizedNew : str) (i : nat) : list str :=
  let originalIndent := indentOf (contentLines !! i) in
  imap (reindent originalIndent oldLines) (split Chr.LF normalizedNew).

(** [contentLines.slice(i, i + n)] and [contentLines.splice(i, n, ...items)]. *)
Definition slice (i n : nat) (l : list str) : list str := take n (drop i l).
Definition splice (i n : nat) (items l : list str) : list str :=
  take i l ++ items ++ drop (i + n) l.

(** The [for (let i = 0; i <= contentLines.length - oldLines.length; i++)]
    loop: the first matching window, if any. *)
Definition findWindow (contentLines oldLines : list str) : option nat :=
  List.find (fun i => isMatch oldLines (slice i (length oldLines) contentLines))
            (seq 0 (S (length contentLines) - length oldLines)).

(** The line-by-line fallback of one edit: the new content, if a window
    matched. *)
Definition lineWindowEdit (modifiedContent normalizedOld normalizedNew : str) : option str :=
  let oldLines := split Chr.LF normalizedOld in
  let contentLines := split Chr.LF modifiedContent in
  match findWindow contentLines oldLines with
  | Some i =>
      let newLines := newLinesFor contentLines oldLines normalizedNew i in
      Some (join [Chr.LF] (splice i (length oldLines) newLines contentLines))
  | None => None
  end.

(** The body of [for (const edit of edits)]. *)
Definition applyEdit (modifiedContent : str) (edit : Edit) : result str :=
  let normalizedOld := normalizeLineEndings (oldText edit) in
  let normalizedNew := normalizeLineEndings (newText edit) in
  if includes modifiedContent normalizedOld then
    Ok (replace modifiedContent normalizedOld normalizedNew)
  else
    match lineWindowEdit modifiedContent normalizedOld normalizedNew with
    | Some content' => Ok content'
    | None => Throw (EditNotFound (oldText edit))
    end.

Fixpoint applyEdits (modifiedContent : str) (edits : list Edit) : result str :=
  match edits with
  | [] => Ok modifiedContent
  | edit :: edits' =>
      match applyEdit modifiedContent edit with
      | Ok content' => applyEdits content' edits'
      | Throw e => Throw e
      end
  end.

(** ** The exclusion test of [searchFiles] *)

(** [pattern.includes('*') ? pattern : `**/${pattern}/**`] *)
Definition globPattern (pattern : str) : str :=
  if includes pattern [Chr.star] then pattern
  else lit "**/" ++ pattern ++ lit "/**".

(** [shouldExclude], for the path of an entry relative to the search root;
    [minimatch path glob] stands for [minimatch(path, glob, { dot: true })]
    of the [minimatch] package. *)
Definition shouldExclude (minimatch : str -> str -> bool)
    (excludePatterns : list str) (relativePath : str) : bool :=
  existsb (fun pattern => minimatch relativePath (globPattern pattern)) excludePatterns.

(** ** The server *)

Section Server.
Context {St : Type}.
Variable P : PathApi.
Variable F : FsApi St.
Variable K : Packages.
Variable allowedDirectories : list str.

Definition normalizePath (p : str) : str := path_normalize P p.

Definition expandHome (filepath : str) : str :=
  if startsWith filepath (lit "~/") || bool_decide (filepath = lit "~")
  then path_join P [os_homedir P; drop 1 filepath]
  else filepath.

(** [allowedDirectories.some(dir => p.startsWith(dir))] *)
Definition isWithinAllowed (p : str) : bool :=
  existsb (fun dir => startsWith p dir) allowedDirectories.

Definition validatePath (requestedPath : str) (st : St) : result str :=
  let expandedPath := expandHome requestedPath in
  let absolute :=
    if path_isAbsolute P expandedPath
    then path_resolve P [expandedPath]
    else path_resolve P [process_cwd P; expandedPath] in
  let normalizedRequested := normalizePath absolute in
  let isAllowed := isWithinAllowed normalizedRequested in
  if negb isAllowed then
    Throw (Error (lit "Access denied - path outside allowed directories: " ++ absolute
                  ++ lit " not in " ++ join (lit ", ") allowedDirectories))
  else
    tryCatch
      (realPath ← fs_realpath F absolute st;
       let normalizedReal := normalizePath realPath in
       let isRealPathAllowed := isWithinAllowed normalizedReal in
       if negb isRealPathAllowed then
         Throw (Error (lit "Access denied - symlink target outside allowed directories"))
       else Ok realPath)
      (fun _ =>
         let parentDir := path_dirname P absolute in
         tryCatch
           (realParentPath ← fs_realpath F parentDir st;
            let normalizedParent := normalizePath realParentPath in
            let isParentAllowed := isWithinAllowed normalizedParent in
            if negb isParentAllowed then
              Throw (Error (lit "Access denied - parent directory outside allowed directories"))
            else Ok absolute)
           (fun _ => Throw (ParentUnreachable parentDir))).

Definition createUnifiedDiff (originalContent newContent filepath : str) : str :=
  let normalizedOriginal := normalizeLineEndings originalContent in
  let normalizedNew := normalizeLineEndings newContent in
  createTwoFilesPatch K filepath filepath normalizedOriginal normalizedNew
                      (lit "original") (lit "modified").

Definition applyFileEdits (filePath : str) (edits : list Edit) (dryRun : bool) : Async St str :=
  raw <- query (fs_readFile F filePath) ;;
  let content := normalizeLineEndings raw in
  modifiedContent <- query (fun _ => applyEdits content edits) ;;
  let diff := createUnifiedDiff content modifiedContent filePath in
  let formattedDiff := formatDiff diff in
  (if negb dryRun then fs_writeFile F filePath modifiedContent else aret tt) ;;;
  aret formattedDiff.

(** [case "edit_file"] *)
Definition edit_file (path : str) (edits : list Edit) (dryRun : bool) : Async St str :=
  validPath <- query (validatePath path) ;;
  applyFileEdits validPath edits dryRun.

(** [case "copy_file"] *)
Definition copy_file (source destination : str) : Async St str :=
  validSourcePath <- query (validatePath source) ;;
  validDestPath <- query (validatePath destination) ;;
  atryCatch
    (query (fs_access F validDestPath) ;;;
     athrow (AlreadyExists destination))
    (fun error =>
       if includes (message error) (lit "already exists") then athrow error
       else aret tt) ;;;
  isDirectory <- query (fs_stat_isDirectory F validSourcePath) ;;
  (if isDirectory : bool
   then fs_cp_recursive F validSourcePath validDestPath
   else fs_copyFile F validSourcePath validDestPath) ;;;
  aret (lit "Successfully copied " ++ source ++ lit " to " ++ destination).

(** [case "move_file"] *)
Definition move_file (source destination : str) : Async St str :=
  validSourcePath <- query (validatePath source) ;;
  validDestPath <- query (validatePath destination) ;;
  fs_rename F validSourcePath validDestPath ;;;
  aret (lit "Successfully moved " ++ source ++ lit " to " ++ destination).

End Server.

(** [const allowedDirectories = args.map(dir =>
    normalizePath(path.resolve(expandHome(dir))))] *)
Definition allowedDirectoriesOf (P : PathApi) (args : list str) : list str :=
  (fun dir => normalizePath P (path_resolve P [expandHome P dir])) <$> args.

(** The absolute path [validatePath] computes for a requested path. *)
Definition absoluteOf (P : PathApi) (requestedPath : str) : str :=
  let expandedPath := expandHome P requestedPath in
  if path_isAbsolute P expandedPath
  then path_resolve P [expandedPath]
  else path_resolve P [process_cwd P; expandedPath].

(** ** A POSIX platform *)

(** Node's [path.posix], as functions on code units. *)
Module Posix.

Definition isSlash (c : N) : bool := (c =? Chr.slash)%N.

(** [normalizeString]: the segments that remain once empty segments and
    [.] are dropped and [..] has removed the segment before it. *)
Fixpoint normalizeSegments (allowAboveRoot : bool) (res segments : list str) : list str :=
  match segments with
  | [] => reverse res
  | seg :: segments' =>
      if bool_decide (seg = []) || bool_decide (seg = lit ".") then
        normalizeSegments allowAboveRoot res segments'
      else if bool_decide (seg = lit "..") then
        match res with
        | last :: res' =>
            if bool_decide (last = lit "..")
            then normalizeSegments allowAboveRoot (seg :: res) segments'
            else normalizeSegments allowAboveRoot res' segments'
        | [] =>
            if allowAboveRoot
            then normalizeSegments allowAboveRoot [seg] segments'
            else normalizeSegments allowAboveRoot [] segments'
        end
      else normalizeSegments allowAboveRoot (seg :: res) segments'
  end.

Definition normalizeString (path : str) (allowAboveRoot : bool) : str :=
  join [Chr.slash] (normalizeSegments allowAboveRoot [] (split Chr.slash path)).

Definition isAbsolute (path : str) : bool :=
  match path with c :: _ => isSlash c | [] => false end.

Definition endsWithSlash (path : str) : bool :=
  match reverse path with c :: _ => isSlash c | [] => false end.

Definition normalize (path : str) : str :=
  match path with
  | [] => lit "."
  | _ :: _ =>
      let absolute := isAbsolute path in
      let trailingSeparator := endsWithSlash path in
      let p := normalizeString path (negb absolute) in
      match p with
      | [] => if absolute then lit "/" else if trailingSeparator then lit "./" else lit "."
      | _ :: _ =>
          let p' := if trailingSeparator then p ++ [Chr.slash] else p in
          if absolute then Chr.slash :: p' else p'
      end
  end.

(** The loop of [resolve], from the last argument to the first and then
    the working directory, until the path is absolute. *)
Fixpoint resolveLoop (cwd : str) (reversedArgs : list str) (resolvedPath : str) : str * bool :=
  match reversedArgs with
  | [] =>
      match cwd with
      | [] => (resolvedPath, false)
      | _ :: _ => (cwd ++ [Chr.slash] ++ resolvedPath, isAbsolute cwd)
      end
  | path :: rest =>
      match path with
      | [] => resolveLoop cwd rest resolvedPath
      | _ :: _ =>
          if isAbsolute path then (path ++ [Chr.slash] ++ resolvedPath, true)
          else resolveLoop cwd rest (path ++ [Chr.slash] ++ resolvedPath)
      end
  end.

Definition resolve (cwd : str) (args : list str) : str :=
  let '(resolvedPath, resolvedAbsolute) := resolveLoop cwd (reverse args) [] in
  let p := normalizeString resolvedPath (negb resolvedAbsolute) in
  if resolvedAbsolute then Chr.slash :: p
  else match p with [] => lit "." | _ :: _ => p end.

Definition join_paths (args : list str) : str :=
  match filter (fun a => a <> []) args with
  | [] => lit "."
  | parts => normalize (join [Chr.slash] parts)
  end.

(** The backwards scan of [dirname]: the index of the slash that ends the
    directory part; the first character is not looked at. *)
Fixpoint dirnameEnd (reversedTail : str) (i : nat) (matchedSlash : bool) : option nat :=
  match reversedTail with
  | [] => None
  | c :: rest =>
      if isSlash c then
        if negb matchedSlash then Some i else dirnameEnd rest (i - 1) matchedSlash
      else dirnameEnd rest (i - 1) false
  end.

Definition dirname (path : str) : str :=
  match path with
  | [] => lit "."
  | c :: tail =>
      let hasRoot := isSlash c in
      match dirnameEnd (reverse tail) (length tail) true with
      | None => if hasRoot then lit "/" else lit "."
      | Some e => if hasRoot && (e =? 1) then lit "//" else take e path
      end
  end.

Definition api (homedir cwd : str) : PathApi := {|
  path_normalize := normalize;
  path_resolve := resolve cwd;
  path_join := join_paths;
  path_isAbsolute := isAbsolute;
  path_dirname := dirname;
  os_homedir := homedir;
  process_cwd := cwd;
|}.

End Posix.

(** ** A disk in memory *)

(** Entries are kept under their absolute path.  A symbolic link holds the
    absolute path it points to and is followed when it is the entry named;
    links in the middle of a path are not modelled. *)
Module MemFs.

Inductive node :=
| File (content : str)
| Dir
| Symlink (target : str).

Abbreviation disk := (gmap (list N) node) (only parsing).

Definition ENOENT (path : str) : error :=
  Error (lit "ENOENT: no such file or directory '" ++ path ++ lit "'").
Definition EISDIR (path : str) : error :=
  Error (lit "EISDIR: illegal operation on a directory '" ++ path ++ lit "'").
Definition ELOOP (path : str) : error :=
  Error (lit "ELOOP: too many symbolic links encountered '" ++ path ++ lit "'").

(** Where the chain of links that starts at [path] ends, whether or not
    there is an entry there. *)
Fixpoint followLinks (fuel : nat) (d : disk) (path : str) : result str :=
  match d !! path with
  | Some (Symlink target) =>
      match fuel with
      | 0 => Throw (ELOOP path)
      | S fuel' => followLinks fuel' d target
      end
  | _ => Ok path
  end.

Definition realpath (path : str) (d : disk) : result str :=
  real ← followLinks 40 d path;
  match d !! real with
  | Some _ => Ok real
  | None => Throw (ENOENT path)
  end.

Definition access (path : str) (d : disk) : result unit :=
  _ ← realpath path d; Ok tt.

Definition stat_isDirectory (path : str) (d : disk) : result bool :=
  real ← realpath path d;
  match d !! real with
  | Some Dir => Ok true
  | _ => Ok false
  end.

Definition readFile (path : str) (d : disk) : result str :=
  real ← realpath path d;
  match d !! real with
  | Some (File content) => Ok content
  | _ => Throw (EISDIR path)
  end.

Definition writeFile (path content : str) (d : disk) : disk * result unit :=
  match followLinks 40 d path with
  | Throw e => (d, Throw e)
  | Ok real =>
      match d !! real with
      | Some Dir => (d, Throw (EISDIR path))
      | _ => (<[real := File content]> d, Ok tt)
      end
  end.

Definition copyFile (src dest : str) (d : disk) : disk * result unit :=
  match readFile src d with
  | Throw e => (d, Throw e)
  | Ok content => writeFile dest content d
  end.

(** The entries below [src], placed below [dest]. *)
Definition rebase (src dest : str) (d : disk) : disk :=
  list_to_map
    (omap (fun '(path, n) =>
             if startsWith path (src ++ [Chr.slash])
             then Some (dest ++ drop (length src) path, n)
             else None)
          (map_to_list d)).

Definition below (src : str) (d : disk) : disk :=
  filter (fun '(path, _) => startsWith path (src ++ [Chr.slash]) = true) d.

Definition cp_recursive (src dest : str) (d : disk) : disk * result unit :=
  match d !! src with
  | None => (d, Throw (ENOENT src))
  | Some n => (<[dest := n]> (rebase src dest d ∪ d), Ok tt)
  end.

(** [rename]: an existing file at [dest] is replaced; a directory at
    [dest] makes the call fail. *)
Definition rename (src dest : str) (d : disk) : disk * result unit :=
  match d !! src with
  | None => (d, Throw (ENOENT src))
  | Some n =>
      match d !! dest with
      | Some Dir => (d, Throw (EISDIR dest))
      | _ =>
          (<[dest := n]> (rebase src dest d ∪ delete src (d ∖ below src d)), Ok tt)
      end
  end.

Definition api : FsApi disk := {|
  fs_realpath := realpath;
  fs_access := access;
  fs_stat_isDirectory := stat_isDirectory;
  fs_readFile := readFile;
  fs_writeFile := writeFile;
  fs_copyFile := copyFile;
  fs_cp_recursive := cp_recursive;
  fs_rename := rename;
|}.

End MemFs.

(** ** Numbers as text *)

(** The digit [d] of a radix up to ten. *)
Definition digitChar (d : N) : N := (48 + d)%N.

(** [n.toString(radix)] and [String(n)] (radix ten) for a non-negative
    integer and a radix from two to ten. *)
Equations numberToString (radix n : N) : str by wf (N.to_nat n) lt :=
  numberToString radix n with inspect ((n <? radix)%N || (radix <=? 1)%N) := {
    | exist _ true _ => [digitChar n]
    | exist _ false _ =>
        numberToString radix (n / radix) ++ [digitChar (n mod radix)] }.
Next Obligation.
  apply orb_false_iff in e as [Hn Hr].
  apply N.ltb_ge in Hn. apply N.leb_gt in Hr.
  assert (n / radix < n)%N by (apply N.div_lt; lia). lia.
Qed.

(** [s.slice(-k)] *)
Definition sliceLast (k : nat) (s : str) : str := drop (length s - k) s.

(** [s.padStart(targetLength, fill)] for a one-character [fill]. *)
Definition padStart (targetLength : nat) (fill : N) (s : str) : str :=
  repeat fill (targetLength - length s) ++ s.

(** ** The rest of the platform *)

(** An entry of [fs.readdir(path, { withFileTypes: true })]. *)
Record Dirent := { dirent_name : str; dirent_isDirectory : bool }.

(** The fields of [fs.Stats] the program reads; times are in milliseconds
    since the epoch. *)
Record Stats := {
  stats_size : N;
  stats_birthtime : Z;
  stats_mtime : Z;
  stats_atime : Z;
  stats_isDirectory : bool;
  stats_isFile : bool;
  stats_mode : N;
}.

Record FsApiMore (St : Type) := {
  fs_readdir : str -> St -> result (list Dirent);
  fs_stat : str -> St -> result Stats;
  fs_mkdir_recursive : str -> St -> St * result unit;
  fs_rm_recursive_force : str -> St -> St * result unit;
}.
Arguments fs_readdir {St}.
Arguments fs_stat {St}.
Arguments fs_mkdir_recursive {St}.
Arguments fs_rm_recursive_force {St}.

Record PathApiMore := {
  path_basename : str -> str;
  path_basename_without : str -> str -> str;
  path_extname : str -> str;
  path_relative : str -> str -> str;
}.

(** An entry of the value [buildTree] returns: [children] is the property
    that only some of the objects have. *)
#[warnings="-register-all"] Inductive treeEntry :=
| TreeEntry (name : str) (type : str) (children : option (list treeEntry)).

(** What the program takes from the language and from its packages besides
    [diff]: [String.prototype.toLowerCase], [minimatch] with [{ dot: true }],
    [JSON.stringify(value, null, 2)], the text of a [Date] in a template and
    [new Date().toISOString()] at the time of the call. *)
Record Builtins := {
  toLowerCase : str -> str;
  minimatch_dot : str -> str -> bool;
  stringifyTree : list treeEntry -> str;
  dateToString : Z -> str;
  nowISOString : str;
}.

(** ** Metadata *)

(** [stats.mode.toString(8).slice(-3)] *)
Definition permissionsOf (mode : N) : str := sliceLast 3 (numberToString 8 mode).

(** What [getFileStats] returns. *)
Record FileInfo := {
  info_size : N;
  info_created : Z;
  info_modified : Z;
  info_accessed : Z;
  info_isDirectory : bool;
  info_isFile : bool;
  info_permissions : str;
}.

Definition fileInfoOf (stats : Stats) : FileInfo := {|
  info_size := stats_size stats;
  info_created := stats_birthtime stats;
  info_modified := stats_mtime stats;
  info_accessed := stats_atime stats;
  info_isDirectory := stats_isDirectory stats;
  info_isFile := stats_isFile stats;
  info_permissions := permissionsOf (stats_mode stats);
|}.

Definition boolToString (b : bool) : str := if b then lit "true" else lit "false".

(** [Object.entries(info).map(([key, value]) => `${key}: ${value}`).join("\n")] *)
Definition renderFileInfo (B : Builtins) (info : FileInfo) : str :=
  join [Chr.LF] [
    lit "size: " ++ numberToString 10 (info_size info);
    lit "created: " ++ dateToString B (info_created info);
    lit "modified: " ++ dateToString B (info_modified info);
    lit "accessed: " ++ dateToString B (info_accessed info);
    lit "isDirectory: " ++ boolToString (info_isDirectory info);
    lit "isFile: " ++ boolToString (info_isFile info);
    lit "permissions: " ++ info_permissions info
  ].

(** ** The local time *)

(** The fields of [now] that [get_local_time] reads. *)
Record DateFields := {
  getDay : nat;
  getDate : N;
  getMonth : N;
  getFullYear : N;
  getHours : N;
  getMinutes : N;
}.

Definition days : list str :=
  [lit "Sunday"; lit "Monday"; lit "Tuesday"; lit "Wednesday";
   lit "Thursday"; lit "Friday"; lit "Saturday"].

(** [String(n).padStart(2, '0')] *)
Definition twoDigits (n : N) : str := padStart 2 48%N (numberToString 10 n).

Definition formattedValue (now : DateFields) : str :=
  let day := default (lit "undefined") (days !! getDay now) in
  let dd := twoDigits (getDate now) in
  let mm := twoDigits (getMonth now + 1) in
  let yyyy := numberToString 10 (getFullYear now) in
  let hh := twoDigits (getHours now) in
  let min := twoDigits (getMinutes now) in
  day ++ lit " " ++ dd ++ lit "-" ++ mm ++ lit "-" ++ yyyy ++ lit " " ++ hh ++ lit ":" ++ min.

(** The text [get_local_time] answers with. *)
Definition get_local_time (now : DateFields) (timezone : str) : str :=
  lit "[timestamp format='Day DD-MM-YYYY HH:MM' timezone='" ++ timezone
  ++ lit "' value='" ++ formattedValue now ++ lit "'/]".

(** ** Responses *)

(** [{ content: [{ type: "text", text }], isError }] *)
Record Response := { text : str; isError : bool }.

(** [executeCommand], given what [execAsync(command)] settles to: the pair
    of [stdout] and [stderr], or the error it rejects with. *)
Definition executeCommand (exec : str -> result (str * str)) (command : str) : Response :=
  match exec command with
  | Ok (stdout, stderr) =>
      if nonEmpty stderr && negb (nonEmpty stdout) then
        {| text := lit "Error: " ++ stderr; isError := true |}
      else
        let output := if nonEmpty stdout then stdout else stderr in
        {| text := trim output; isError := false |}
  | Throw err =>
      {| text := lit "Command failed: " ++ message err; isError := true |}
  end.

(** [timestamp.replace(/[:.]/g, '-')] *)
Definition dashed (timestamp : str) : str :=
  (fun c => if (c =? 58)%N || (c =? 46)%N then 45%N else c) <$> timestamp.

(** ** The walkers and the remaining handlers *)

Section Walkers.
Context {St : Type}.
Variable P : PathApi.
Variable P' : PathApiMore.
Variable F : FsApi St.
Variable F' : FsApiMore St.
Variable B : Builtins.
Variable allowedDirectories : list str.

(** The [for (const entry of entries)] loop of [search]; [recurse] is the
    call [search(fullPath)], which gives no answer when the model has no
    depth left. *)
Fixpoint searchEntries (recurse : str -> list str -> option (list str * result unit))
    (rootPath pattern : str) (excludePatterns : list str) (currentPath : str)
    (entries : list Dirent) (results : list str) (st : St)
    : option (list str * result unit) :=
  match entries with
  | [] => Some (results, Ok tt)
  | entry :: entries' =>
      let continue := searchEntries recurse rootPath pattern excludePatterns currentPath entries' in
      let fullPath := path_join P [currentPath; dirent_name entry] in
      match validatePath P F allowedDirectories fullPath st with
      | Throw _ => continue results st
      | Ok _ =>
          let relativePath := path_relative P' rootPath fullPath in
          if shouldExclude (minimatch_dot B) excludePatterns relativePath then
            continue results st
          else
            let results1 :=
              if includes (toLowerCase B (dirent_name entry)) (toLowerCase B pattern)
              then results ++ [fullPath] else results in
            if dirent_isDirectory entry then
              match recurse fullPath results1 with
              | None => None
              | Some (results2, _) => continue results2 st
              end
            else continue results1 st
      end
  end.

(** [search(currentPath)] inside [searchFiles], with the array [results]
    passed along; [depth] bounds the nesting of the calls. *)
Fixpoint search (depth : nat) (rootPath pattern : str) (excludePatterns : list str)
    (st : St) (currentPath : str) (results : list str)
    : option (list str * result unit) :=
  match depth with
  | 0 => None
  | S depth' =>
      match fs_readdir F' currentPath st with
      | Throw e => Some (results, Throw e)
      | Ok entries =>
          searchEntries (search depth' rootPath pattern excludePatterns st)
                        rootPath pattern excludePatterns currentPath entries results st
      end
  end.

Definition searchFiles (depth : nat) (rootPath pattern : str) (excludePatterns : list str)
    (st : St) : option (result (list str)) :=
  match search depth rootPath pattern excludePatterns st rootPath [] with
  | None => None
  | Some (results, Ok _) => Some (Ok results)
  | Some (_, Throw e) => Some (Throw e)
  end.

(** The loop of [buildTree], with its array [result] passed along as
    [collected]. *)
Fixpoint buildEntries (recurse : str -> option (result (list treeEntry)))
    (currentPath : str) (entries : list Dirent) (collected : list treeEntry)
    : option (result (list treeEntry)) :=
  match entries with
  | [] => Some (Ok collected)
  | entry :: entries' =>
      if dirent_isDirectory entry then
        let subPath := path_join P [currentPath; dirent_name entry] in
        match recurse subPath with
        | None => None
        | Some (Throw e) => Some (Throw e)
        | Some (Ok children) =>
            buildEntries recurse currentPath entries'
              (collected ++ [TreeEntry (dirent_name entry) (lit "directory") (Some children)])
        end
      else
        buildEntries recurse currentPath entries'
          (collected ++ [TreeEntry (dirent_name entry) (lit "file") None])
  end.

(** [buildTree(currentPath)] in [case "directory_tree"]. *)
Fixpoint buildTree (depth : nat) (st : St) (currentPath : str)
    : option (result (list treeEntry)) :=
  match depth with
  | 0 => None
  | S depth' =>
      match validatePath P F allowedDirectories currentPath st with
      | Throw e => Some (Throw e)
      | Ok validPath =>
          match fs_readdir F' validPath st with
          | Throw e => Some (Throw e)
          | Ok entries => buildEntries (buildTree depth' st) currentPath entries []
          end
      end
  end.

(** [case "read_file"] *)
Definition read_file (path : str) : Async St str :=
  validPath <- query (validatePath P F allowedDirectories path) ;;
  query (fs_readFile F validPath).

(** The callback of [parsed.data.paths.map] in [case "read_multiple_files"]. *)
Definition readOne (st : St) (filePath : str) : str :=
  match (validPath ← validatePath P F allowedDirectories filePath st;
         fs_readFile F validPath st) with
  | Ok content => filePath ++ lit ":" ++ [Chr.LF] ++ content ++ [Chr.LF]
  | Throw error => filePath ++ lit ": Error - " ++ message error
  end.

(** [case "read_multiple_files"] *)
Definition read_multiple_files (paths : list str) : Async St str :=
  fun st =>
    let results := readOne st <$> paths in
    (st, Ok (join ([Chr.LF] ++ lit "---" ++ [Chr.LF]) results)).

(** [case "write_file"] *)
Definition write_file (path content : str) : Async St str :=
  validPath <- query (validatePath P F allowedDirectories path) ;;
  fs_writeFile F validPath content ;;;
  aret (lit "Successfully wrote to " ++ path).

(** [case "create_directory"] *)
Definition create_directory (path : str) : Async St str :=
  validPath <- query (validatePath P F allowedDirectories path) ;;
  fs_mkdir_recursive F' validPath ;;;
  aret (lit "Successfully created directory " ++ path).

(** [`${entry.isDirectory() ? "[DIR]" : "[FILE]"} ${entry.name}`] *)
Definition formatEntry (entry : Dirent) : str :=
  (if dirent_isDirectory entry then lit "[DIR]" else lit "[FILE]")
  ++ lit " " ++ dirent_name entry.

(** [case "list_directory"] *)
Definition list_directory (path : str) : Async St str :=
  validPath <- query (validatePath P F allowedDirectories path) ;;
  entries <- query (fs_readdir F' validPath) ;;
  aret (join [Chr.LF] (formatEntry <$> entries)).

Definition getFileStats (filePath : str) (st : St) : result FileInfo :=
  stats ← fs_stat F' filePath st; Ok (fileInfoOf stats).

(** [case "get_file_info"] *)
Definition get_file_info (path : str) : Async St str :=
  validPath <- query (validatePath P F allowedDirectories path) ;;
  info <- query (getFileStats validPath) ;;
  aret (renderFileInfo B info).

(** [case "list_allowed_directories"] *)
Definition list_allowed_directories : str :=
  lit "Allowed directories:" ++ [Chr.LF] ++ join [Chr.LF] allowedDirectories.

(** The failure of [path.join(null, 'Trash')]. *)
Definition joinNullError : error :=
  Error (lit "The " ++ [34%N] ++ lit "path" ++ [34%N]
         ++ lit " argument must be of type string. Received null").

Definition AlreadyTrashed (validPath : str) : error :=
  Error (lit "Cannot delete files that are already in Trash. Please delete manually from: "
         ++ validPath).

(** The name under which [delete_file] stores the item: in the trash
    directory under its own name, or with the time added when that name is
    taken. *)
Definition chooseTrashPath (trashDir fileName : str) : Async St str :=
  let trashPath := path_join P [trashDir; fileName] in
  atryCatch
    (query (fs_access F trashPath) ;;;
     let timestamp := dashed (nowISOString B) in
     let ext := path_extname P' fileName in
     let base := path_basename_without P' fileName ext in
     aret (path_join P [trashDir; base ++ lit "_" ++ timestamp ++ ext]))
    (fun _ => aret trashPath).

(** [case "delete_file"] *)
Definition delete_file (path : str) : Async St str :=
  validPath <- query (validatePath P F allowedDirectories path) ;;
  match List.find (fun dir => startsWith validPath dir) allowedDirectories with
  | None => athrow joinNullError
  | Some workspaceRoot =>
      let trashDir := path_join P [workspaceRoot; lit "Trash"] in
      let normalizedPath := normalizePath P validPath in
      let normalizedTrash := normalizePath P trashDir in
      if startsWith normalizedPath normalizedTrash then athrow (AlreadyTrashed validPath)
      else
        let fileName := path_basename P' validPath in
        fs_mkdir_recursive F' trashDir ;;;
        trashPath <- chooseTrashPath trashDir fileName ;;
        isDirectory <- query (fs_stat_isDirectory F validPath) ;;
        (if isDirectory : bool
         then fs_cp_recursive F validPath trashPath
         else fs_copyFile F validPath trashPath) ;;;
        fs_rm_recursive_force F' validPath ;;;
        aret (lit "Successfully moved " ++ path ++ lit " to " ++ trashPath)
  end.

(** [case "search_files"] *)
Definition search_files (depth : nat) (path pattern : str) (excludePatterns : list str)
    (st : St) : option (St * result str) :=
  match validatePath P F allowedDirectories path st with
  | Throw e => Some (st, Throw e)
  | Ok validPath =>
      match searchFiles depth validPath pattern excludePatterns st with
      | None => None
      | Some (Throw e) => Some (st, Throw e)
      | Some (Ok results) =>
          Some (st, Ok (match results with
                        | [] => lit "No matches found"
                        | _ :: _ => join [Chr.LF] results
                        end))
      end
  end.

(** [case "directory_tree"] *)
Definition directory_tree (depth : nat) (path : str) (st : St) : option (St * result str) :=
  match buildTree depth st path with
  | None => None
  | Some (Throw e) => Some (st, Throw e)
  | Some (Ok treeData) => Some (st, Ok (stringifyTree B treeData))
  end.

(** The tools of the file system, with the arguments their schemas accept. *)
Inductive request :=
| ReadFile (path : str)
| ReadMultipleFiles (paths : list str)
| WriteFile (path content : str)
| EditFile (path : str) (edits : list Edit) (dryRun : bool)
| CreateDirectory (path : str)
| ListDirectory (path : str)
| DirectoryTree (path : str)
| MoveFile (source destination : str)
| CopyFile (source destination : str)
| DeleteFile (path : str)
| SearchFiles (path pattern : str) (excludePatterns : list str)
| GetFileInfo (path : str)
| ListAllowedDirectories
| UnknownTool (name : str).

(** The [switch (name)] of the request handler. *)
Definition dispatch (K : Packages) (depth : nat) (r : request) (st : St)
    : option (St * result str) :=
  match r with
  | ReadFile path => Some (read_file path st)
  | ReadMultipleFiles paths => Some (read_multiple_files paths st)
  | WriteFile path content => Some (write_file path content st)
  | EditFile path edits dryRun =>
      Some (edit_file P F K allowedDirectories path edits dryRun st)
  | CreateDirectory path => Some (create_directory path st)
  | ListDirectory path => Some (list_directory path st)
  | DirectoryTree path => directory_tree depth path st
  | MoveFile source destination =>
      Some (move_file P F allowedDirectories source destination st)
  | CopyFile source destination =>
      Some (copy_file P F allowedDirectories source destination st)
  | DeleteFile path => Some (delete_file path st)
  | SearchFiles path pattern excludePatterns =>
      search_files depth path pattern excludePatterns st
  | GetFileInfo path => Some (get_file_info path st)
  | ListAllowedDirectories => Some (st, Ok list_allowed_directories)
  | UnknownTool name => Some (st, Throw (Error (lit "Unknown tool: " ++ name)))
  end.

(** The request handler: what a tool returns is the text of the response,
    what it throws is reported with [isError]. *)
Definition callTool (K : Packages) (depth : nat) (r : request) (st : St)
    : option (St * Response) :=
  match dispatch K depth r st with
  | None => None
  | Some (st', Ok t) => Some (st', {| text := t; isError := false |})
  | Some (st', Throw error) =>
      Some (st', {| text := lit "Error: " ++ message error; isError := true |})
  end.

End Walkers.

(** ** The rest of the POSIX platform and of the disk in memory *)

(** [basename], [extname] and [relative] of Node's [path.posix]. *)
Module PosixMore.

Fixpoint dropSlashes (s : str) : str :=
  match s with
  | c :: s' => if Posix.isSlash c then dropSlashes s' else s
  | [] => []
  end.

Fixpoint untilSlash (s : str) : str :=
  match s with
  | c :: s' => if Posix.isSlash c then [] else c :: untilSlash s'
  | [] => []
  end.

(** The last segment of the path, trailing slashes aside. *)
Definition basename (path : str) : str :=
  reverse (untilSlash (dropSlashes (reverse path))).

Definition endsWith (s suffix : str) : bool := startsWith (reverse s) (reverse suffix).

Definition basename_without (path suffix : str) : str :=
  if negb (nonEmpty suffix) || (length path <? length suffix) then basename path
  else if bool_decide (suffix = path) then []
  else
    let base := basename path in
    if endsWith base suffix && negb (bool_decide (base = suffix))
    then take (length base - length suffix) base
    else base.

(** The text of [s] from its last dot, when there is one. *)
Fixpoint fromLastDot (s : str) : option str :=
  match s with
  | [] => None
  | c :: s' =>
      match fromLastDot s' with
      | Some ext => Some ext
      | None => if (c =? 46)%N then Some s else None
      end
  end.

Definition extname (path : str) : str :=
  let base := basename path in
  match base with
  | [] => []
  | first :: rest =>
      if bool_decide (base = lit "..") then []
      else match fromLastDot rest with
           | Some ext => ext
           | None => []
           end
  end.

Fixpoint stripCommon (from to : list str) : list str * list str :=
  match from, to with
  | f :: from', t :: to' =>
      if bool_decide (f = t) then stripCommon from' to' else (from, to)
  | _, _ => (from, to)
  end.

Definition segmentsOf (cwd path : str) : list str :=
  filter (fun seg => seg <> []) (split Chr.slash (Posix.resolve cwd [path])).

Definition relative (cwd from to : str) : str :=
  let '(up, down) := stripCommon (segmentsOf cwd from) (segmentsOf cwd to) in
  join [Chr.slash] (((fun _ => lit "..") <$> up) ++ down).

Definition api (cwd : str) : PathApiMore := {|
  path_basename := basename;
  path_basename_without := basename_without;
  path_extname := extname;
  path_relative := relative cwd;
|}.

End PosixMore.

(** [readdir], [stat], [mkdir] and [rm] on the disk in memory. *)
Module MemFsMore.
Import MemFs.

Definition ENOTDIR (path : str) : error :=
  Error (lit "ENOTDIR: not a directory '" ++ path ++ lit "'").
Definition EEXIST (path : str) : error :=
  Error (lit "EEXIST: file already exists '" ++ path ++ lit "'").

Definition isDir (n : node) : bool :=
  match n with Dir => true | _ => false end.

(** The entry of [dir] that the key [path] stands for, if it is one. *)
Definition direntOf (dir : str) (entry : list N * node) : option Dirent :=
  let '(path, n) := entry in
  if startsWith path (dir ++ [Chr.slash]) then
    let name := drop (length dir + 1) path in
    if nonEmpty name && negb (includes name [Chr.slash])
    then Some {| dirent_name := name; dirent_isDirectory := isDir n |}
    else None
  else None.

Definition readdir (path : str) (d : gmap (list N) node) : result (list Dirent) :=
  real ← realpath path d;
  match d !! real with
  | Some Dir => Ok (omap (direntOf real) (map_to_list d))
  | _ => Throw (ENOTDIR path)
  end.

Definition stat (path : str) (d : gmap (list N) node) : result Stats :=
  real ← realpath path d;
  match d !! real with
  | Some (File content) =>
      Ok {| stats_size := N.of_nat (length content); stats_birthtime := 0; stats_mtime := 0;
            stats_atime := 0; stats_isDirectory := false; stats_isFile := true;
            stats_mode := 33188 |}
  | _ =>
      Ok {| stats_size := 0; stats_birthtime := 0; stats_mtime := 0;
            stats_atime := 0; stats_isDirectory := true; stats_isFile := false;
            stats_mode := 16877 |}
  end.

Definition mkdir_recursive (path : str) (d : gmap (list N) node)
    : gmap (list N) node * result unit :=
  match d !! path with
  | Some Dir => (d, Ok tt)
  | Some _ => (d, Throw (EEXIST path))
  | None => (<[path := Dir]> d, Ok tt)
  end.

Definition rm_recursive_force (path : str) (d : gmap (list N) node)
    : gmap (list N) node * result unit :=
  (delete path (d ∖ below path d), Ok tt).

Definition api : FsApiMore (gmap (list N) node) := {|
  fs_readdir := readdir;
  fs_stat := stat;
  fs_mkdir_recursive := mkdir_recursive;
  fs_rm_recursive_force := rm_recursive_force;
|}.

Definition EACCES (path : str) : error :=
  Error (lit "EACCES: permission denied '" ++ path ++ lit "'").

(** The same disk with a directory that may not be listed, and with a
    volume that is full. *)
Definition apiDenying (denied : str) : FsApiMore (gmap (list N) node) := {|
  fs_readdir := fun path d =>
    if bool_decide (path = denied) then Throw (EACCES path) else readdir path d;
  fs_stat := stat;
  fs_mkdir_recursive := mkdir_recursive;
  fs_rm_recursive_force := rm_recursive_force;
|}.

Definition ENOSPC (path : str) : error :=
  Error (lit "ENOSPC: no space left on device '" ++ path ++ lit "'").

Definition apiFull : FsApi (gmap (list N) node) := {|
  fs_realpath := realpath;
  fs_access := access;
  fs_stat_isDirectory := stat_isDirectory;
  fs_readFile := readFile;
  fs_writeFile := fun path _ d => (d, Throw (ENOSPC path));
  fs_copyFile := fun _ dest d => (d, Throw (ENOSPC dest));
  fs_cp_recursive := fun _ dest d => (d, Throw (ENOSPC dest));
  fs_rename := rename;
|}.

End MemFsMore.

(** ** Definitions of the specification *)

(** The length of the run of [c] that starts [s], and of the longest run of
    [c] anywhere in [s]. *)
Fixpoint runFrom (c : N) (s : str) : nat :=
  match s with
  | x :: s' => if (x =? c)%N then S (runFrom c s') else 0
  | [] => 0
  end.

Fixpoint longestRun (c : N) (s : str) : nat :=
  match s with
  | [] => 0
  | _ :: s' => Nat.max (runFrom c s) (longestRun c s')
  end.

(** Segment-aware containment in a root that does not end in a separator,
    such as [/data]: [p] is the root itself or lies below it. *)
Definition insideRoot (root p : str) : Prop :=
  p = root \/ exists rest, p = root ++ [Chr.slash] ++ rest.

Definition insideSomeRoot (roots : list str) (p : str) : Prop :=
  exists root, root ∈ roots /\ insideRoot root p.

(** Every CR of [s] stands directly before an LF. *)
Fixpoint everyCRBeforeLF (s : str) : bool :=
  match s with
  | [] => true
  | c :: rest =>
      (if (c =? Chr.CR)%N
       then match rest with d :: _ => (d =? Chr.LF)%N | [] => false end
       else true)
      && everyCRBeforeLF rest
  end.

(** A replacement text without a dollar sign. *)
Definition noDollar (s : str) : Prop := Chr.dollar ∉ s.

(** The error of [validatePath] for a path outside the allowed
    directories. *)
Definition PathOutside (allowedDirectories : list str) (absolute : str) : error :=
  Error (lit "Access denied - path outside allowed directories: " ++ absolute
         ++ lit " not in " ++ join (lit ", ") allowedDirectories).


(** The same for [buildTree], which lists the validated path of each
    directory. *)
Fixpoint treeNestingWithin {St : Type} (P : PathApi) (F : FsApi St) (F' : FsApiMore St)
    (allowedDirectories : list str) (st : St) (depth : nat) (dir : str) : Prop :=
  match depth with
  | 0 => False
  | S depth' =>
      forall validPath entries entry,
        validatePath P F allowedDirectories dir st = Ok validPath ->
        fs_readdir F' validPath st = Ok entries ->
        entry ∈ entries -> dirent_isDirectory entry = true ->
        treeNestingWithin P F F' allowedDirectories st depth'
                          (path_join P [dir; dirent_name entry])
  end.

(** An entry of a tree is a file without [children] or a directory with
    [children], and so are the entries below it. *)
Fixpoint wellShaped (t : treeEntry) : bool :=
  match t with
  | TreeEntry _ type children =>
      match children with
      | Some entries => bool_decide (type = lit "directory") && forallb wellShaped entries
      | None => bool_decide (type = lit "file")
      end
  end.

Definition entryName (t : treeEntry) : list N :=
  match t with TreeEntry name _ _ => name end.

Definition entryIsDirectory (t : treeEntry) : bool :=
  match t with TreeEntry _ _ children => bool_decide (is_Some children) end.

(** The directories [search] is called on: the root, and every directory
    entry in the listing of such a directory that passes [validatePath]
    and is matched by no exclusion pattern. *)
Inductive searchedBy {St : Type} (P : PathApi) (P' : PathApiMore) (F : FsApi St)
    (F' : FsApiMore St) (B : Builtins) (allowedDirectories : list str)
    (rootPath : str) (excludePatterns : list str) (st : St) : str -> Prop :=
| searched_root :
    searchedBy P P' F F' B allowedDirectories rootPath excludePatterns st rootPath
| searched_below (currentPath : str) (entries : list Dirent) (entry : Dirent) (validPath : str) :
    searchedBy P P' F F' B allowedDirectories rootPath excludePatterns st currentPath ->
    fs_readdir F' currentPath st = Ok entries ->
    entry ∈ entries ->
    dirent_isDirectory entry = true ->
    validatePath P F allowedDirectories (path_join P [currentPath; dirent_name entry]) st
    = Ok validPath ->
    shouldExclude (minimatch_dot B) excludePatterns
                  (path_relative P' rootPath (path_join P [currentPath; dirent_name entry]))
    = false ->
    searchedBy P P' F F' B allowedDirectories rootPath excludePatterns st
               (path_join P [currentPath; dirent_name entry]).

(** What [searchFiles] has checked of a path it reports: the path is the
    join of a directory [search] was called on and the name of an entry in
    the listing of that directory; it passes [validatePath]; the name of
    the entry contains the pattern, both in lower case; no exclusion
    pattern matches the path relative to the root. *)
Definition reportedBy {St : Type} (P : PathApi) (P' : PathApiMore) (F : FsApi St)
    (F' : FsApiMore St) (B : Builtins) (allowedDirectories : list str)
    (rootPath pattern : str) (excludePatterns : list str) (st : St)
    (fullPath : str) : Prop :=
  exists currentPath entries entry validPath,
    searchedBy P P' F F' B allowedDirectories rootPath excludePatterns st currentPath
    /\ fs_readdir F' currentPath st = Ok entries
    /\ entry ∈ entries
    /\ fullPath = path_join P [currentPath; dirent_name entry]
    /\ validatePath P F allowedDirectories fullPath st = Ok validPath
    /\ includes (toLowerCase B (dirent_name entry)) (toLowerCase B pattern) = true
    /\ shouldExclude (minimatch_dot B) excludePatterns (path_relative P' rootPath fullPath)
       = false.

(** The path a tool validates first. *)
Definition primaryPath (r : request) : option str :=
  match r with
  | ReadFile path | WriteFile path _ | EditFile path _ _ | CreateDirectory path
  | ListDirectory path | DirectoryTree path | DeleteFile path
  | SearchFiles path _ _ | GetFileInfo path => Some path
  | MoveFile source _ | CopyFile source _ => Some source
  | ReadMultipleFiles _ | ListAllowedDirectories | UnknownTool _ => None
  end.

(** The path a tool validates second, and the first with it. *)
Definition secondPath (r : request) : option (str * str) :=
  match r with
  | MoveFile source destination | CopyFile source destination => Some (source, destination)
  | _ => None
  end.

(** ** The sample disk *)

(** A stand-in for the [diff] package in the concrete runs: the header of a
    two-file patch followed by the old and the new text. *)
Definition plainPatch (oldName newName oldStr newStr oldHeader newHeader : str) : str :=
  lit "--- " ++ oldName ++ [9%N] ++ oldHeader ++ [Chr.LF]
  ++ lit "+++ " ++ newName ++ [9%N] ++ newHeader ++ [Chr.LF]
  ++ lit "-" ++ oldStr ++ [Chr.LF] ++ lit "+" ++ newStr ++ [Chr.LF].

Definition packages : Packages := {|
  createTwoFilesPatch := plainPatch;
|}.

Definition posix : PathApi := Posix.api (lit "/home/user") (lit "/data").

Import MemFs.
Definition sampleDisk : gmap (list N) node :=
  list_to_map [
    (lit "/data", Dir);
    (lit "/data/a.txt", File (lit "alpha"));
    (lit "/data/b.txt", File (lit "beta"));
    (lit "/data/link", Symlink (lit "/etc/passwd"));
    (lit "/data2", Dir);
    (lit "/data2/secret.txt", File (lit "secret"));
    (lit "/etc", Dir);
    (lit "/etc/passwd", File (lit "root"))
  ].

(** The sample disk has the allowed root [/data] with two files and a link
    to [/etc/passwd], and the directories [/data2] and [/etc] beside it. *)
Definition roots : list (list N) := [lit "/data"].

Definition twoLines (first second : string) : list N := lit first ++ [Chr.LF] ++ lit second.
Arguments twoLines (first second)%_string.

Definition posixMore : PathApiMore := PosixMore.api (lit "/data").

(** Stand-ins for the runs: lower case on the letters A to Z, no exclusion,
    the names of the top entries, and a time as its number. *)
Definition asciiLower (s : list N) : list N :=
  (fun c => if (65 <=? c)%N && (c <=? 90)%N then (c + 32)%N else c) <$> s.

Definition builtins : Builtins := {|
  toLowerCase := asciiLower;
  minimatch_dot := fun _ _ => false;
  stringifyTree := fun tree => join (lit ",") (entryName <$> tree);
  dateToString := fun t => numberToString 10 (Z.to_N t);
  nowISOString := lit "2025-10-14T09:30:15.123Z";
|}.

(** A directory with a subdirectory and a trash directory in it. *)
Definition treeDisk : gmap (list N) node :=
  list_to_map [
    (lit "/data", Dir);
    (lit "/data/a.txt", File (lit "alpha"));
    (lit "/data/sub", Dir);
    (lit "/data/sub/Notes.TXT", File (lit "n"));
    (lit "/data/sub/empty", Dir);
    (lit "/data/Trash", Dir);
    (lit "/data/Trash/a.txt", File (lit "old"))
  ].

(** * Properties *)

(** ** Strings *)

Lemma includes_nil (pat : str) : includes [] pat = startsWith [] pat.
Proof. unfold includes. simpl. now destruct (startsWith [] pat). Qed.

Lemma includes_cons (x : N) (s pat : str) :
  includes (x :: s) pat = startsWith (x :: s) pat || includes s pat.
Proof.
  unfold includes. cbn [indexOf].
  destruct (startsWith (x :: s) pat); [reflexivity|].
  now destruct (indexOf s pat).
Qed.

(** ** The fence *)

Lemma startsWith_repeat (c : N) (n : nat) (s : str) :
  startsWith s (repeat c n) = true <-> n <= runFrom c s.
Proof.
  revert s. induction n as [|n IH]; intros s; simpl.
  - split; [lia | reflexivity].
  - destruct s as [|x s]; simpl.
    + split; [discriminate | lia].
    + destruct (N.eqb_spec x c) as [->|Hne]; simpl.
      * rewrite IH. lia.
      * split; [discriminate | lia].
Qed.

Lemma includes_repeat (c : N) (n : nat) (s : str) :
  includes s (repeat c n) = true <-> n <= longestRun c s.
Proof.
  induction s as [|x s IH].
  - rewrite includes_nil, startsWith_repeat. reflexivity.
  - rewrite includes_cons, orb_true_iff, startsWith_repeat, IH.
    cbn [longestRun]. lia.
Qed.

Lemma numBackticksFrom_max (diff : str) (n : nat) :
  numBackticksFrom diff n = Nat.max n (S (longestRun Chr.backtick diff)).
Proof.
  funelim (numBackticksFrom diff n).
  - rewrite H. pose proof (proj1 (includes_repeat _ _ _) e). lia.
  - assert (~ n <= longestRun Chr.backtick diff) as Hn.
    { rewrite <- includes_repeat. rewrite e. discriminate. }
    lia.
Qed.

(** ** Line endings *)

Lemma normalizeLineEndings_cons2 (c d : N) (rest : str) :
  normalizeLineEndings (c :: d :: rest)
  = if (c =? Chr.CR)%N && (d =? Chr.LF)%N
    then Chr.LF :: normalizeLineEndings rest
    else c :: normalizeLineEndings (d :: rest).
Proof. reflexivity. Qed.

Lemma normalizeLineEndings_crlf (a b : str) :
  normalizeLineEndings (a ++ Chr.CR :: Chr.LF :: b)
  = normalizeLineEndings a ++ Chr.LF :: normalizeLineEndings b.
Proof.
  remember (length a) as n eqn:Hn. revert a Hn.
  induction n as [n IH] using lt_wf_ind. intros a ->.
  destruct a as [|c [|d a]].
  - reflexivity.
  - cbn. rewrite andb_false_r. reflexivity.
  - change ((c :: d :: a) ++ Chr.CR :: Chr.LF :: b)
      with (c :: d :: (a ++ Chr.CR :: Chr.LF :: b)).
    rewrite !normalizeLineEndings_cons2.
    destruct ((c =? Chr.CR)%N && (d =? Chr.LF)%N).
    + rewrite (IH (length a)); [reflexivity | simpl; lia | reflexivity].
    + change (d :: a ++ Chr.CR :: Chr.LF :: b) with ((d :: a) ++ Chr.CR :: Chr.LF :: b).
      rewrite (IH (length (d :: a))); [reflexivity | simpl; lia | reflexivity].
Qed.

(** ** The patch engine *)

Lemma applyEdits_app (content : str) (pre post : list Edit) :
  applyEdits content (pre ++ post)
  = match applyEdits content pre with
    | Ok buffer => applyEdits buffer post
    | Throw e => Throw e
    end.
Proof.
  revert content. induction pre as [|e pre IH]; intros content; simpl.
  - reflexivity.
  - destruct (applyEdit content e); [apply IH | reflexivity].
Qed.

Lemma find_all_false {A : Type} (f : A -> bool) (l : list A) :
  (forall x, In x l -> f x = false) -> List.find f l = None.
Proof.
  induction l as [|x l IH]; intros H; simpl.
  - reflexivity.
  - rewrite (H x (or_introl eq_refl)). apply IH. intros y Hy. apply H. now right.
Qed.

Lemma findWindow_none (contentLines oldLines : list str) :
  (forall i, i + length oldLines <= length contentLines ->
             isMatch oldLines (slice i (length oldLines) contentLines) = false) ->
  findWindow contentLines oldLines = None.
Proof.
  intros H. unfold findWindow. apply find_all_false.
  intros i Hi. apply in_seq in Hi. apply H. lia.
Qed.

Section PatchEngine.
Context {St : Type}.
Variable F : FsApi St.
Variable K : Packages.

Lemma applyFileEdits_unfold (filePath : str) (edits : list Edit) (dryRun : bool) (st : St) :
  applyFileEdits F K filePath edits dryRun st
  = match fs_readFile F filePath st with
    | Throw e => (st, Throw e)
    | Ok raw =>
        match applyEdits (normalizeLineEndings raw) edits with
        | Throw e => (st, Throw e)
        | Ok modified =>
            let diff := createUnifiedDiff K (normalizeLineEndings raw) modified filePath in
            if dryRun then (st, Ok (formatDiff diff))
            else match fs_writeFile F filePath modified st with
                 | (st', Ok _) => (st', Ok (formatDiff diff))
                 | (st', Throw e) => (st', Throw e)
                 end
        end
    end.
Proof.
  unfold applyFileEdits, abind, query, aret.
  destruct (fs_readFile F filePath st) as [raw|e]; [|reflexivity].
  destruct (applyEdits (normalizeLineEndings raw) edits) as [modified|e]; [|reflexivity].
  destruct dryRun; simpl; [reflexivity|].
  destruct (fs_writeFile F filePath modified st) as [st' [[]|e]]; reflexivity.
Qed.

(** C7 (as amended): the fence of the diff returned by a successful batch
    has three backticks, or one more than the longest run of backticks in
    the diff when that is more; the diff contains no run of backticks as
    long as the fence. *)
Theorem fence_longer_than_backtick_runs
    (filePath : str) (edits : list Edit) (dryRun : bool) (st st' : St) (out : str) :
  applyFileEdits F K filePath edits dryRun st = (st', Ok out) ->
  exists original modified,
    fs_readFile F filePath st = Ok original
    /\ applyEdits (normalizeLineEndings original) edits = Ok modified
    /\ let diff := createUnifiedDiff K (normalizeLineEndings original) modified filePath in
       let n := Nat.max 3 (S (longestRun Chr.backtick diff)) in
       out = repeat Chr.backtick n ++ lit "diff" ++ [Chr.LF] ++ diff
               ++ repeat Chr.backtick n ++ [Chr.LF; Chr.LF]
       /\ includes diff (repeat Chr.backtick n) = false.
Proof.
  rewrite applyFileEdits_unfold.
  destruct (fs_readFile F filePath st) as [original|e]; [|discriminate].
  destruct (applyEdits (normalizeLineEndings original) edits) as [modified|e] eqn:E;
    [|discriminate].
  intros H. exists original, modified. split; [reflexivity|]. split; [exact E|].
  cbv zeta. set (diff := createUnifiedDiff K _ _ _) in *.
  assert (out = formatDiff diff) as ->.
  { destruct dryRun; [congruence|].
    destruct (fs_writeFile F filePath modified st) as [st'' [[]|e]]; congruence. }
  split.
  - unfold formatDiff, fence. rewrite numBackticksFrom_max. reflexivity.
  - destruct (includes diff _) eqn:Ei; [|reflexivity].
    apply (proj1 (includes_repeat _ _ _)) in Ei. lia.
Qed.

(** C4: when an edit of the batch matches neither verbatim nor on any
    window of lines, in the buffer left by the edits before it,
    [applyFileEdits] fails with [EditNotFound] of that edit's [oldText] and
    the disk is as it was. *)
Theorem unmatched_edit_aborts_batch
    (filePath original buffer : str) (pre post : list Edit) (edit : Edit)
    (dryRun : bool) (st : St) :
  fs_readFile F filePath st = Ok original ->
  applyEdits (normalizeLineEndings original) pre = Ok buffer ->
  includes buffer (normalizeLineEndings (oldText edit)) = false ->
  (let oldLines := split Chr.LF (normalizeLineEndings (oldText edit)) in
   let contentLines := split Chr.LF buffer in
   forall i, i + length oldLines <= length contentLines ->
             isMatch oldLines (slice i (length oldLines) contentLines) = false) ->
  applyFileEdits F K filePath (pre ++ edit :: post) dryRun st
  = (st, Throw (EditNotFound (oldText edit))).
Proof.
  intros Hread Hpre Hexact Hwindow.
  rewrite applyFileEdits_unfold, Hread, applyEdits_app, Hpre.
  cbn [applyEdits]. unfold applyEdit, lineWindowEdit.
  rewrite Hexact, (findWindow_none _ _ Hwindow). reflexivity.
Qed.

End PatchEngine.

(** ** Substrings and replacement *)

Lemma startsWith_iff (s prefix : str) :
  startsWith s prefix = true <-> exists rest, s = prefix ++ rest.
Proof.
  revert s. induction prefix as [|p prefix IH]; intros s.
  - split; [exists s; reflexivity | reflexivity].
  - destruct s as [|c s]; simpl.
    + split; [discriminate | intros [rest H]; discriminate].
    + rewrite andb_true_iff, N.eqb_eq, IH. split.
      * intros [-> [rest ->]]. exists rest. reflexivity.
      * intros [rest [= -> ->]]. split; [reflexivity | exists rest; reflexivity].
Qed.

Lemma startsWith_app_l (s t prefix : str) :
  startsWith s prefix = true -> startsWith (s ++ t) prefix = true.
Proof.
  rewrite !startsWith_iff. intros [rest ->]. exists (rest ++ t).
  now rewrite app_assoc.
Qed.

Lemma includes_app_l (s t pat : str) :
  includes s pat = true -> includes (s ++ t) pat = true.
Proof.
  induction s as [|c s IH].
  - rewrite includes_nil. intros H. simpl.
    destruct pat; [|discriminate]. unfold includes. now destruct t.
  - change ((c :: s) ++ t) with (c :: (s ++ t)).
    rewrite !includes_cons, !orb_true_iff. intros [H|H].
    + left. now apply (startsWith_app_l (c :: s) t).
    + right. now apply IH.
Qed.

(** The index found by [indexOf] splits the string around the pattern, and
    the pattern does not start at any earlier index. *)
Lemma indexOf_split (s pat : str) (i : nat) :
  indexOf s pat = Some i ->
  s = take i s ++ pat ++ drop (i + length pat) s
  /\ forall j, j < i -> startsWith (drop j s) pat = false.
Proof.
  revert i. induction s as [|c s IH]; intros i; cbn [indexOf].
  - destruct (startsWith [] pat) eqn:E; [|discriminate].
    intros [= <-]. destruct pat; [|discriminate]. split; [reflexivity | lia].
  - destruct (startsWith (c :: s) pat) eqn:E.
    + intros [= <-]. split; [|lia].
      apply startsWith_iff in E as [rest E]. rewrite E at 1.
      simpl. rewrite E, drop_app_length. reflexivity.
    + destruct (indexOf s pat) as [k|] eqn:Ek; [|discriminate].
      intros [= <-]. destruct (IH k eq_refl) as [Hs Hj]. split.
      * simpl. f_equal. exact Hs.
      * intros [|j] Hlt; [exact E|]. simpl. apply Hj. lia.
Qed.

Lemma getSubstitution_noDollar (matched before after replacement : str) :
  noDollar replacement ->
  getSubstitution matched before after replacement = replacement.
Proof.
  unfold noDollar. induction replacement as [|c rest IH]; intros H; [reflexivity|].
  apply not_elem_of_cons in H as [Hc Hrest]. cbn [getSubstitution].
  destruct (N.eqb_spec c Chr.dollar) as [->|_]; [congruence|].
  now rewrite IH.
Qed.

(** Without a dollar sign in the replacement, [replace] puts the replacement
    in the place of the first occurrence. *)
Lemma replace_first_occurrence (s pat replacement : str) (i : nat) :
  indexOf s pat = Some i ->
  noDollar replacement ->
  replace s pat replacement = take i s ++ replacement ++ drop (i + length pat) s.
Proof.
  intros Hi Hd. unfold replace. rewrite Hi. cbv zeta.
  now rewrite getSubstitution_noDollar.
Qed.

(** ** Indentation *)

Lemma leadingWhitespace_app (ws rest : str) :
  Forall (fun c => isWhiteSpace c = true) ws ->
  leadingWhitespace rest = [] ->
  leadingWhitespace (ws ++ rest) = ws.
Proof.
  induction 1 as [|c ws Hc _ IH]; intros Hrest; simpl.
  - exact Hrest.
  - rewrite Hc. f_equal. now apply IH.
Qed.

Lemma leadingWhitespace_white (s : str) :
  Forall (fun c => isWhiteSpace c = true) (leadingWhitespace s).
Proof.
  induction s as [|c s IH]; simpl; [constructor|].
  destruct (isWhiteSpace c) eqn:E; constructor; assumption.
Qed.

Lemma leadingWhitespace_trimStart (s : str) : leadingWhitespace (trimStart s) = [].
Proof.
  induction s as [|c s IH]; simpl; [reflexivity|].
  destruct (isWhiteSpace c) eqn:E; [exact IH|]. simpl. now rewrite E.
Qed.

Lemma indentOf_white (line : option str) :
  Forall (fun c => isWhiteSpace c = true) (indentOf line).
Proof. destruct line; simpl; [apply leadingWhitespace_white | constructor]. Qed.

Lemma nonEmpty_true (s : str) : s <> [] -> nonEmpty s = true.
Proof. destruct s; [congruence | reflexivity]. Qed.

(** C6 (as amended): when the window at line [i] is the first that matches,
    the window is replaced by the lines of the new text, where the first
    line gets the indentation of the first line of the window, and every
    later line whose old line and new line both start with white space gets
    that indentation followed by as many spaces as the new line has more
    leading white space than the old one, none if it has less. *)
Theorem window_replacement_indentation (buffer normalizedOld normalizedNew : str) (i : nat) :
  let oldLines := split Chr.LF normalizedOld in
  let contentLines := split Chr.LF buffer in
  let originalIndent := indentOf (contentLines !! i) in
  let newLines := newLinesFor contentLines oldLines normalizedNew i in
  findWindow contentLines oldLines = Some i ->
  lineWindowEdit buffer normalizedOld normalizedNew
  = Some (join [Chr.LF] (take i contentLines ++ newLines
                           ++ drop (i + length oldLines) contentLines))
  /\ (forall line, split Chr.LF normalizedNew !! 0 = Some line ->
        newLines !! 0 = Some (originalIndent ++ trimStart line)
        /\ leadingWhitespace (originalIndent ++ trimStart line) = originalIndent)
  /\ (forall j line oldLine,
        0 < j ->
        split Chr.LF normalizedNew !! j = Some line ->
        oldLines !! j = Some oldLine ->
        leadingWhitespace oldLine <> [] ->
        leadingWhitespace line <> [] ->
        let extra := Z.to_nat (Z.max 0 (Z.of_nat (length (leadingWhitespace line))
                                        - Z.of_nat (length (leadingWhitespace oldLine)))) in
        newLines !! j = Some (originalIndent ++ repeat Chr.space extra ++ trimStart line)
        /\ leadingWhitespace (originalIndent ++ repeat Chr.space extra ++ trimStart line)
           = originalIndent ++ repeat Chr.space extra).
Proof.
  intros oldLines contentLines originalIndent newLines Hfind.
  split; [|split].
  - unfold lineWindowEdit. fold oldLines contentLines. rewrite Hfind. reflexivity.
  - intros line Hline. unfold newLines, newLinesFor.
    rewrite list_lookup_imap, Hline. split; [reflexivity|].
    apply leadingWhitespace_app;
      [apply indentOf_white | apply leadingWhitespace_trimStart].
  - intros j line oldLine Hj Hline Hold HoldWs HnewWs extra.
    unfold newLines, newLinesFor. rewrite list_lookup_imap, Hline.
    destruct j as [|j]; [lia|]. cbn [fmap option_fmap option_map reindent].
    fold oldLines. rewrite Hold. cbn [indentOf].
    rewrite (nonEmpty_true _ HoldWs), (nonEmpty_true _ HnewWs). cbn [andb].
    split; [reflexivity|].
    rewrite app_assoc. rewrite leadingWhitespace_app;
      [reflexivity | | apply leadingWhitespace_trimStart].
    apply Forall_app. split; [apply indentOf_white|].
    apply Forall_forall. intros c Hc. apply list_elem_of_In, repeat_spec in Hc. subst c. reflexivity.
Qed.

(** ** The path sandbox *)

Section Sandbox.
Context {St : Type}.
Variable P : PathApi.
Variable F : FsApi St.
Variable allowedDirectories : list str.

Lemma isWithinAllowed_false (p : str) :
  (forall root, root ∈ allowedDirectories -> startsWith p root = false) ->
  isWithinAllowed allowedDirectories p = false.
Proof.
  intros H. unfold isWithinAllowed.
  destruct (existsb _ _) eqn:E; [|reflexivity].
  apply existsb_exists in E as [root [Hin Hp]].
  apply list_elem_of_In in Hin. rewrite (H root Hin) in Hp. discriminate.
Qed.

End Sandbox.

(** ** The handlers *)

Section Handlers.
Context {St : Type}.
Variable P : PathApi.
Variable F : FsApi St.
Variable K : Packages.
Variable allowedDirectories : list str.

(** [copy_file] checks the destination: when it exists the call fails
    and nothing is copied. *)
Lemma copy_file_destination_exists (source destination validSource validDest : str) (st : St) :
  validatePath P F allowedDirectories source st = Ok validSource ->
  validatePath P F allowedDirectories destination st = Ok validDest ->
  fs_access F validDest st = Ok tt ->
  copy_file P F allowedDirectories source destination st
  = (st, Throw (AlreadyExists destination)).
Proof.
  intros Hs Hd Ha. unfold copy_file, abind, query, atryCatch, athrow.
  rewrite Hs, Hd, Ha. cbn [message AlreadyExists].
  rewrite includes_app_l by reflexivity. reflexivity.
Qed.

(** [move_file] hands both paths to [rename] unchecked. *)
Lemma move_file_renames (source destination validSource validDest : str) (st : St) :
  validatePath P F allowedDirectories source st = Ok validSource ->
  validatePath P F allowedDirectories destination st = Ok validDest ->
  move_file P F allowedDirectories source destination st
  = match fs_rename F validSource validDest st with
    | (st', Ok _) =>
        (st', Ok (lit "Successfully moved " ++ source ++ lit " to " ++ destination))
    | (st', Throw e) => (st', Throw e)
    end.
Proof.
  intros Hs Hd. unfold move_file, abind, query, aret. now rewrite Hs, Hd.
Qed.

(** C9: with [dryRun] set, [applyFileEdits] and the [edit_file] handler
    leave the disk as they found it, whether the batch succeeds or
    fails. *)
Theorem dry_run_leaves_disk (path : str) (edits : list Edit) (st : St) :
  (applyFileEdits F K path edits true st).1 = st
  /\ (edit_file P F K allowedDirectories path edits true st).1 = st.
Proof.
  assert (Happly : forall filePath, (applyFileEdits F K filePath edits true st).1 = st).
  { intros filePath. rewrite applyFileEdits_unfold.
    destruct (fs_readFile F filePath st) as [raw|e]; [|reflexivity].
    destruct (applyEdits (normalizeLineEndings raw) edits); reflexivity. }
  split; [apply Happly|].
  unfold edit_file, abind, query.
  destruct (validatePath P F allowedDirectories path st) as [validPath|e];
    [apply Happly | reflexivity].
Qed.

End Handlers.

(** ** Runs on the sample disk *)

Example roots_at_startup : allowedDirectoriesOf posix [lit "/data/"] = roots.
Proof. reflexivity. Qed.

(** Closed goals are settled by running the definitions. *)
Ltac by_run := vm_compute; first [reflexivity | discriminate].

(** C1: [/data/link] is inside the allowed root and is a link to
    [/etc/passwd], outside every allowed root; the error thrown for the link
    target is caught by the handler meant for paths that do not exist, the
    parent [/data] is allowed, and the path is validated. *)
Theorem symlink_escape_is_validated :
  insideSomeRoot roots (normalizePath posix (absoluteOf posix (lit "/data/link")))
  /\ fs_realpath MemFs.api (lit "/data/link") sampleDisk = Ok (lit "/etc/passwd")
  /\ isWithinAllowed roots (normalizePath posix (lit "/etc/passwd")) = false
  /\ validatePath posix MemFs.api roots (lit "/data/link") sampleDisk = Ok (lit "/data/link").
Proof.
  split; [|repeat split; vm_compute; reflexivity].
  exists (lit "/data"). split; [apply list_elem_of_here|].
  right. exists (lit "link"). vm_compute. reflexivity.
Qed.

(** C2: with the allowed root [/data], the path [/data2/secret.txt] is
    neither the root nor below it, segment by segment, and yet it is not
    refused: [/data] is a prefix of its text, so [validatePath] returns it
    and the [read_file] tool answers with the content of the file. *)
Theorem sibling_directory_is_admitted :
  let canonical := normalizePath posix (absoluteOf posix (lit "/data2/secret.txt")) in
  canonical = lit "/data2/secret.txt"
  /\ ~ insideSomeRoot roots canonical
  /\ isWithinAllowed roots canonical = true
  /\ validatePath posix MemFs.api roots (lit "/data2/secret.txt") sampleDisk
     = Ok (lit "/data2/secret.txt")
  /\ callTool posix posixMore MemFs.api MemFsMore.api builtins roots packages 1
       (ReadFile (lit "/data2/secret.txt")) sampleDisk
     = Some (sampleDisk, {| text := lit "secret"; isError := false |}).
Proof.
  cbv zeta. split_and!; try by_run.
  intros [root [Hin Hp]]. apply list_elem_of_singleton in Hin. subst root.
  destruct Hp as [Hp|[rest Hp]]; vm_compute in Hp; discriminate.
Qed.

(** C3: [move_file] onto the existing file [/data/b.txt] succeeds and
    replaces its content; there is no check of the destination in
    [move_file]. *)
Theorem move_file_replaces_destination :
  let run := move_file posix MemFs.api roots (lit "/data/a.txt") (lit "/data/b.txt") sampleDisk in
  fs_access MemFs.api (lit "/data/b.txt") sampleDisk = Ok tt
  /\ sampleDisk !! lit "/data/b.txt" = Some (File (lit "beta"))
  /\ run.2 = Ok (lit "Successfully moved /data/a.txt to /data/b.txt")
  /\ run.1 !! lit "/data/b.txt" = Some (File (lit "alpha")).
Proof. split_and!; by_run. Qed.

(** A batch of two edits whose second old text is nowhere in the file. *)
Lemma unmatched_edit_aborts_batch_witness :
  let first := {| oldText := lit "alpha"; newText := lit "omega" |} in
  let second := {| oldText := lit "gamma"; newText := lit "delta" |} in
  applyEdits (lit "alpha") [first] = Ok (lit "omega")
  /\ applyFileEdits MemFs.api packages (lit "/data/a.txt") [first; second] false sampleDisk
     = (sampleDisk, Throw (EditNotFound (lit "gamma"))).
Proof.
  intros first second. split; [vm_compute; reflexivity|].
  apply (unmatched_edit_aborts_batch MemFs.api packages (lit "/data/a.txt")
           (lit "alpha") (lit "omega") [first] [] second false sampleDisk).
  - vm_compute. reflexivity.
  - vm_compute. reflexivity.
  - vm_compute. reflexivity.
  - intros oldLines contentLines i Hi.
    assert (i = 0) as ->.
    { vm_compute in oldLines, contentLines. subst oldLines contentLines.
      simpl in Hi. lia. }
    vm_compute. reflexivity.
Defined.

(** C5: the old text [X] occurs verbatim, and the new text [$$5 $&] is not
    what takes its place: [replace] reads [$$] as one dollar sign and [$&]
    as the matched text. *)
Theorem exact_replace_interprets_dollar :
  let edit := {| oldText := lit "X"; newText := lit "$$5 $&" |} in
  includes (lit "price: X") (normalizeLineEndings (oldText edit)) = true
  /\ applyEdit (lit "price: X") edit = Ok (lit "price: $5 X")
  /\ lit "price: $5 X" <> lit "price: " ++ newText edit ++ [].
Proof. split_and!; by_run. Qed.

(** C6 fails on the code: the window starts with six spaces of indentation,
    the second old line has four and the second new line two; the second
    replacement line gets six, not four. *)
Lemma indentation_difference_is_clamped :
  let buffer := twoLines "      foo" "        bar" in
  let edit := {| oldText := twoLines "  foo" "    bar"; newText := twoLines "  foo" "  baz" |} in
  includes buffer (oldText edit) = false
  /\ applyEdit buffer edit = Ok (twoLines "      foo" "      baz")
  /\ (Z.of_nat (length (leadingWhitespace (lit "      baz"))) <> 6 + (2 - 4))%Z.
Proof. split_and!; by_run. Qed.

(** A window found at the first line, with a second new line indented two
    more than the second old line. *)
Lemma window_replacement_indentation_witness :
  let buffer := twoLines "      foo" "        bar" in
  let old := twoLines "  foo" "    bar" in
  let new := twoLines "  foo" "      baz" in
  findWindow (split Chr.LF buffer) (split Chr.LF old) = Some 0
  /\ lineWindowEdit buffer old new = Some (twoLines "      foo" "        baz")
  /\ newLinesFor (split Chr.LF buffer) (split Chr.LF old) new 0 !! 1
     = Some (lit "      " ++ repeat Chr.space 2 ++ lit "baz").
Proof.
  intros buffer old new.
  assert (Hfind : findWindow (split Chr.LF buffer) (split Chr.LF old) = Some 0)
    by (vm_compute; reflexivity).
  destruct (window_replacement_indentation buffer old new 0 Hfind) as [Hedit [_ Hlater]].
  split; [exact Hfind|]. split.
  - rewrite Hedit. vm_compute. reflexivity.
  - apply (Hlater 1 (lit "      baz") (lit "    bar")).
    + lia.
    + vm_compute. reflexivity.
    + vm_compute. reflexivity.
    + vm_compute. discriminate.
    + vm_compute. discriminate.
Defined.

(** C7 fails on the code: the diff of this batch has no backtick, and its
    fence has three backticks, not one. *)
Lemma fence_has_three_backticks_at_least :
  let diff := plainPatch (lit "/data/a.txt") (lit "/data/a.txt") (lit "alpha") (lit "omega")
                         (lit "original") (lit "modified") in
  applyFileEdits MemFs.api packages (lit "/data/a.txt")
                 [{| oldText := lit "alpha"; newText := lit "omega" |}] true sampleDisk
  = (sampleDisk, Ok (repeat Chr.backtick 3 ++ lit "diff" ++ [Chr.LF] ++ diff
                       ++ repeat Chr.backtick 3 ++ [Chr.LF; Chr.LF]))
  /\ longestRun Chr.backtick diff = 0
  /\ 3 <> 1 + longestRun Chr.backtick diff.
Proof. split_and!; by_run. Qed.

(** A diff with a run of four backticks gets a fence of five. *)
Lemma fence_longer_than_backtick_runs_witness :
  let edits := [{| oldText := lit "alpha"; newText := lit "al````pha" |}] in
  let diff := plainPatch (lit "/data/a.txt") (lit "/data/a.txt") (lit "alpha") (lit "al````pha")
                         (lit "original") (lit "modified") in
  applyFileEdits MemFs.api packages (lit "/data/a.txt") edits true sampleDisk
  = (sampleDisk, Ok (repeat Chr.backtick 5 ++ lit "diff" ++ [Chr.LF] ++ diff
                       ++ repeat Chr.backtick 5 ++ [Chr.LF; Chr.LF]))
  /\ exists original modified,
       fs_readFile MemFs.api (lit "/data/a.txt") sampleDisk = Ok original
       /\ applyEdits (normalizeLineEndings original) edits = Ok modified
       /\ let diff := createUnifiedDiff packages (normalizeLineEndings original) modified
                                        (lit "/data/a.txt") in
          let n := Nat.max 3 (S (longestRun Chr.backtick diff)) in
          repeat Chr.backtick 5 ++ lit "diff" ++ [Chr.LF]
            ++ plainPatch (lit "/data/a.txt") (lit "/data/a.txt") (lit "alpha") (lit "al````pha")
                          (lit "original") (lit "modified")
            ++ repeat Chr.backtick 5 ++ [Chr.LF; Chr.LF]
          = repeat Chr.backtick n ++ lit "diff" ++ [Chr.LF] ++ diff
              ++ repeat Chr.backtick n ++ [Chr.LF; Chr.LF]
          /\ includes diff (repeat Chr.backtick n) = false.
Proof.
  intros edits diff.
  assert (Hrun : applyFileEdits MemFs.api packages (lit "/data/a.txt") edits true sampleDisk
                 = (sampleDisk, Ok (repeat Chr.backtick 5 ++ lit "diff" ++ [Chr.LF] ++ diff
                                      ++ repeat Chr.backtick 5 ++ [Chr.LF; Chr.LF])))
    by (vm_compute; reflexivity).
  split; [exact Hrun|].
  exact (fence_longer_than_backtick_runs MemFs.api packages _ _ _ _ _ _ Hrun).
Defined.

(** ** The exclusion test *)

(** What [searchFiles] hands to [minimatch]: a pattern without [*] is
    wrapped, a pattern with [*] is passed as it is. *)
Lemma globPattern_without_star (pattern : str) :
  Chr.star ∉ pattern -> globPattern pattern = lit "**/" ++ pattern ++ lit "/**".
Proof.
  intros H. unfold globPattern.
  destruct (includes pattern [Chr.star]) eqn:E; [|reflexivity].
  exfalso. apply H. clear H. induction pattern as [|c pattern IH].
  - discriminate.
  - rewrite includes_cons in E. apply orb_true_iff in E as [E|E].
    + simpl in E. rewrite andb_true_r in E. apply N.eqb_eq in E as ->. apply list_elem_of_here.
    + apply list_elem_of_further, IH, E.
Qed.

Lemma globPattern_with_star (pattern : str) :
  Chr.star ∈ pattern -> globPattern pattern = pattern.
Proof.
  intros H. unfold globPattern.
  enough (includes pattern [Chr.star] = true) as -> by reflexivity.
  induction pattern as [|c pattern IH].
  - now apply not_elem_of_nil in H.
  - rewrite includes_cons. apply elem_of_cons in H as [<-|H].
    + reflexivity.
    + rewrite (IH H). apply orb_true_r.
Qed.

Lemma shouldExclude_iff (minimatch : str -> str -> bool)
    (excludePatterns : list str) (relativePath : str) :
  shouldExclude minimatch excludePatterns relativePath = true
  <-> exists pattern, pattern ∈ excludePatterns
                      /\ minimatch relativePath (globPattern pattern) = true.
Proof.
  unfold shouldExclude. rewrite existsb_exists.
  split; intros [pattern [Hin H]]; exists pattern; split;
    try assumption; now apply list_elem_of_In.
Qed.

(** ** Numbers as text *)

Lemma numberToString_small (radix n : N) :
  (n < radix)%N -> numberToString radix n = [digitChar n].
Proof.
  intros H. funelim (numberToString radix n); [reflexivity|].
  pose proof (proj1 (orb_false_iff _ _) e) as [Hn _]. apply N.ltb_ge in Hn. lia.
Qed.

Lemma numberToString_step (radix n : N) :
  (2 <= radix)%N -> (radix <= n)%N ->
  numberToString radix n = numberToString radix (n / radix) ++ [digitChar (n mod radix)].
Proof.
  intros Hr Hn. funelim (numberToString radix n); [|reflexivity].
  pose proof (proj1 (orb_true_iff _ _) e) as [Hlt|Hle];
    [apply N.ltb_lt in Hlt | apply N.leb_le in Hle]; lia.
Qed.

Lemma numberToString_last (radix n : N) :
  (2 <= radix)%N ->
  exists front, numberToString radix n = front ++ [digitChar (n mod radix)].
Proof.
  intros Hr. destruct (N.lt_ge_cases n radix) as [Hlt|Hge].
  - exists []. rewrite numberToString_small by assumption.
    now rewrite N.mod_small.
  - eexists. now apply numberToString_step.
Qed.

(** X1: for a mode of at least 0o100, as every mode with file-type bits
    is, the permissions of [getFileStats] are the three lowest octal digits
    of the mode. *)
Theorem permissions_are_low_octal_digits (mode : N) :
  (64 <= mode)%N ->
  permissionsOf mode
  = [digitChar ((mode / 64) mod 8); digitChar ((mode / 8) mod 8); digitChar (mode mod 8)].
Proof.
  intros H. unfold permissionsOf, sliceLast.
  rewrite (numberToString_step 8 mode) by lia.
  assert (8 <= mode / 8)%N as H8.
  { apply N.div_le_lower_bound; lia. }
  rewrite (numberToString_step 8 (mode / 8)) by lia.
  destruct (numberToString_last 8 (mode / 8 / 8)) as [front Hfront]; [lia|].
  rewrite Hfront, N.Div0.div_div. change (8 * 8)%N with 64%N.
  rewrite <- !app_assoc. simpl app.
  rewrite length_app. simpl length.
  replace (length front + 3 - 3) with (length front) by lia.
  now rewrite drop_app_length.
Qed.

Lemma permissions_are_low_octal_digits_witness :
  (64 <= 33188)%N /\ permissionsOf 33188 = lit "644".
Proof.
  split; [lia|].
  rewrite (permissions_are_low_octal_digits 33188) by lia. reflexivity.
Defined.

Lemma twoDigits_below_hundred (n : N) :
  (n < 100)%N -> twoDigits n = [digitChar (n / 10); digitChar (n mod 10)].
Proof.
  intros H. unfold twoDigits, padStart.
  destruct (N.lt_ge_cases n 10) as [Hlt|Hge].
  - rewrite numberToString_small by assumption.
    rewrite N.div_small, N.mod_small by assumption. reflexivity.
  - rewrite numberToString_step by lia.
    rewrite numberToString_small by (apply N.Div0.div_lt_upper_bound; lia).
    reflexivity.
Qed.

(** X2: for a weekday from 0 to 6 and a day, month, hour and minute as a
    [Date] has them, the value of [get_local_time] is the name of the day, a
    space, and day, month, year, hour and minute in the layout
    [DD-MM-YYYY HH:MM], each of the four short fields with exactly two
    digits. *)
Theorem formattedValue_layout (now : DateFields) :
  getDay now < 7 ->
  (getDate now < 100)%N -> (getMonth now < 12)%N ->
  (getHours now < 24)%N -> (getMinutes now < 60)%N ->
  exists day,
    days !! getDay now = Some day
    /\ formattedValue now
       = day ++ lit " "
         ++ [digitChar (getDate now / 10); digitChar (getDate now mod 10)] ++ lit "-"
         ++ [digitChar ((getMonth now + 1) / 10); digitChar ((getMonth now + 1) mod 10)]
         ++ lit "-" ++ numberToString 10 (getFullYear now) ++ lit " "
         ++ [digitChar (getHours now / 10); digitChar (getHours now mod 10)] ++ lit ":"
         ++ [digitChar (getMinutes now / 10); digitChar (getMinutes now mod 10)].
Proof.
  intros Hday Hdate Hmonth Hhours Hminutes.
  destruct (lookup_lt_is_Some_2 days (getDay now)) as [day Hlookup]; [exact Hday|].
  exists day. split; [exact Hlookup|].
  unfold formattedValue. rewrite Hlookup. cbn [default from_option].
  rewrite !twoDigits_below_hundred by lia. reflexivity.
Qed.

Lemma formattedValue_layout_witness :
  formattedValue {| getDay := 3; getDate := 5; getMonth := 9; getFullYear := 2025;
                    getHours := 2; getMinutes := 21 |}
  = lit "Wednesday 05-10-2025 02:21".
Proof.
  destruct (formattedValue_layout
              {| getDay := 3; getDate := 5; getMonth := 9; getFullYear := 2025;
                 getHours := 2; getMinutes := 21 |})
    as [day [Hday ->]]; cbn; try lia.
  vm_compute in Hday. injection Hday as <-. vm_compute. reflexivity.
Defined.

(** ** Trimming *)

Lemma trimStart_suffix (s : str) :
  exists ws, s = ws ++ trimStart s.
Proof.
  induction s as [|c s [ws IH]]; [exists []; reflexivity|]. simpl.
  destruct (isWhiteSpace c); [|exists []; reflexivity].
  exists (c :: ws). simpl. now f_equal.
Qed.

Lemma trimEnd_prefix (s : str) :
  exists ws, s = trimEnd s ++ ws.
Proof.
  destruct (trimStart_suffix (reverse s)) as [ws H].
  exists (reverse ws). unfold trimEnd.
  rewrite <- reverse_app, <- H. now rewrite reverse_involutive.
Qed.

Lemma leadingWhitespace_prefix_nil (a b : str) :
  leadingWhitespace (a ++ b) = [] -> leadingWhitespace a = [].
Proof.
  destruct a as [|c a]; [reflexivity|]. simpl.
  destruct (isWhiteSpace c); [discriminate | reflexivity].
Qed.

Lemma trim_no_leading (s : str) : leadingWhitespace (trim s) = [].
Proof.
  unfold trim. destruct (trimEnd_prefix (trimStart s)) as [ws H].
  apply (leadingWhitespace_prefix_nil _ ws). rewrite <- H.
  apply leadingWhitespace_trimStart.
Qed.

Lemma trim_no_trailing (s : str) : leadingWhitespace (reverse (trim s)) = [].
Proof.
  unfold trim, trimEnd. rewrite reverse_involutive.
  apply leadingWhitespace_trimStart.
Qed.

(** X3: when the command runs, [executeCommand] reports an error exactly
    when there is output on [stderr] and none on [stdout]; otherwise the text
    is [stdout], or [stderr] when [stdout] is empty, with no white space
    left at either end. *)
Theorem executeCommand_reports (exec : str -> result (str * str)) (command stdout stderr : str) :
  exec command = Ok (stdout, stderr) ->
  let response := executeCommand exec command in
  (isError response = true <-> stdout = [] /\ stderr <> [])
  /\ (isError response = true -> text response = lit "Error: " ++ stderr)
  /\ (isError response = false ->
      text response = trim (if nonEmpty stdout then stdout else stderr)
      /\ leadingWhitespace (text response) = []
      /\ leadingWhitespace (reverse (text response)) = []).
Proof.
  intros H response. unfold response, executeCommand. rewrite H. clear H response.
  assert (Htrim : forall s, trim s = trim s /\ leadingWhitespace (trim s) = []
                            /\ leadingWhitespace (reverse (trim s)) = []).
  { intros s. split_and!; [reflexivity | apply trim_no_leading | apply trim_no_trailing]. }
  destruct stdout as [|c stdout], stderr as [|d stderr];
    cbn [nonEmpty andb negb isError text].
  - split_and!; [split; [discriminate | intros [_ ?]; congruence] | discriminate
                 | intros _; apply Htrim].
  - split_and!; [split; [intros _; split; [reflexivity | discriminate] | reflexivity]
                 | reflexivity | discriminate].
  - split_and!; [split; [discriminate | intros [? _]; discriminate] | discriminate
                 | intros _; apply Htrim].
  - split_and!; [split; [discriminate | intros [? _]; discriminate] | discriminate
                 | intros _; apply Htrim].
Qed.

Lemma executeCommand_reports_witness :
  executeCommand (fun _ => Ok (lit "  v1.2 ", lit "warning")) (lit "tool -v")
  = {| text := lit "v1.2"; isError := false |}.
Proof.
  pose proof (executeCommand_reports (fun _ => Ok (lit "  v1.2 ", lit "warning"))
                (lit "tool -v") (lit "  v1.2 ") (lit "warning") eq_refl) as [_ [_ H]].
  vm_compute. reflexivity.
Defined.

(** ** Lines *)

Lemma list_ind2 {A : Type} (Q : list A -> Prop) :
  Q [] -> (forall c, Q [c]) ->
  (forall c d l, Q l -> Q (d :: l) -> Q (c :: d :: l)) ->
  forall l, Q l.
Proof.
  intros Hnil Hone Hstep l.
  enough (Q l /\ forall c, Q (c :: l)) as [H _] by exact H.
  induction l as [|d l [IH1 IH2]]; split; auto.
Qed.

Lemma startsWith_crlf (c d : N) (rest : str) :
  startsWith (c :: d :: rest) [Chr.CR; Chr.LF] = (c =? Chr.CR)%N && (d =? Chr.LF)%N.
Proof. simpl. now rewrite andb_true_r. Qed.

Lemma normalizeLineEndings_length (s : str) :
  length (normalizeLineEndings s) <= length s
  /\ (includes s [Chr.CR; Chr.LF] = true -> length (normalizeLineEndings s) < length s).
Proof.
  induction s as [|c|c d rest [IH1 IH1'] [IH2 IH2']] using list_ind2.
  - split; [reflexivity | intros H; vm_compute in H; discriminate].
  - split; [reflexivity|]. unfold includes. cbn. destruct (c =? Chr.CR)%N; discriminate.
  - rewrite normalizeLineEndings_cons2, includes_cons, startsWith_crlf.
    destruct ((c =? Chr.CR)%N && (d =? Chr.LF)%N); simpl in *.
    + split; [lia | intros _; lia].
    + split; [lia | intros H; specialize (IH2' H); lia].
Qed.

(** X4: [normalizeLineEndings] returns its argument unchanged exactly when
    the argument has no CR LF in it; otherwise the result is shorter. *)
Theorem normalizeLineEndings_fixed_iff_no_crlf (s : str) :
  (normalizeLineEndings s = s <-> includes s [Chr.CR; Chr.LF] = false)
  /\ (includes s [Chr.CR; Chr.LF] = true ->
      length (normalizeLineEndings s) < length s).
Proof.
  split; [|apply normalizeLineEndings_length]. split.
  - intros H. destruct (includes s [Chr.CR; Chr.LF]) eqn:E; [|reflexivity].
    apply normalizeLineEndings_length in E. rewrite H in E. lia.
  - induction s as [|c|c d rest _ IH] using list_ind2; try reflexivity.
    rewrite normalizeLineEndings_cons2, includes_cons, startsWith_crlf.
    destruct ((c =? Chr.CR)%N && (d =? Chr.LF)%N); [discriminate|].
    intros H. simpl in H. now rewrite (IH H).
Qed.

Lemma normalizeLineEndings_elem (x : N) (s : str) :
  x ∈ normalizeLineEndings s -> x ∈ s.
Proof.
  induction s as [|c|c d rest IH1 IH2] using list_ind2; try (intros H; exact H).
  rewrite normalizeLineEndings_cons2.
  destruct ((c =? Chr.CR)%N && (d =? Chr.LF)%N) eqn:E.
  - apply andb_prop in E as [_ Ed]. apply N.eqb_eq in Ed. subst d.
    intros [->|H]%elem_of_cons.
    + apply list_elem_of_further, list_elem_of_here.
    + do 2 apply list_elem_of_further. exact (IH1 H).
  - intros [->|H]%elem_of_cons.
    + apply list_elem_of_here.
    + apply list_elem_of_further. exact (IH2 H).
Qed.

Lemma split_nonempty (sep : N) (s : str) : split sep s <> [].
Proof.
  destruct s as [|c s]; simpl; [discriminate|].
  destruct (c =? sep)%N; [discriminate|].
  destruct (split sep s); discriminate.
Qed.

Lemma join_cons (sep l : str) (ls : list str) :
  ls <> [] -> join sep (l :: ls) = l ++ sep ++ join sep ls.
Proof. destruct ls; [congruence | reflexivity]. Qed.

Lemma join_split (sep : N) (s : str) : join [sep] (split sep s) = s.
Proof.
  induction s as [|c s IH]; [reflexivity|]. simpl.
  destruct (N.eqb_spec c sep) as [->|Hne].
  - rewrite join_cons by apply split_nonempty. simpl. now rewrite IH.
  - pose proof (split_nonempty sep s) as Hs.
    destruct (split sep s) as [|l ls]; [congruence|].
    destruct ls as [|l' ls].
    + simpl in *. now rewrite IH.
    + rewrite join_cons in * by discriminate. simpl. now rewrite <- IH.
Qed.

Lemma split_no_sep (sep : N) (s : str) :
  Forall (fun l => sep ∉ l) (split sep s).
Proof.
  induction s as [|c s IH]; simpl.
  - repeat constructor. apply not_elem_of_nil.
  - destruct (N.eqb_spec c sep) as [->|Hne].
    + constructor; [apply not_elem_of_nil | exact IH].
    + destruct (split sep s) as [|l ls].
      * repeat constructor. intros [?|Hin%not_elem_of_nil]%elem_of_cons; congruence.
      * inversion IH as [|? ? Hl Hls]; subst. constructor; [|exact Hls].
        intros [?|Hin]%elem_of_cons; [congruence | exact (Hl Hin)].
Qed.

Lemma split_line (sep : N) (l : str) : sep ∉ l -> split sep l = [l].
Proof.
  induction l as [|c l IH]; intros H; [reflexivity|]. simpl.
  apply not_elem_of_cons in H as [Hc Hl].
  destruct (N.eqb_spec c sep) as [->|_]; [congruence|]. now rewrite (IH Hl).
Qed.

Lemma split_line_sep (sep : N) (l rest : str) :
  sep ∉ l -> split sep (l ++ sep :: rest) = l :: split sep rest.
Proof.
  induction l as [|c l IH]; intros H; simpl.
  - now rewrite N.eqb_refl.
  - apply not_elem_of_cons in H as [Hc Hl].
    destruct (N.eqb_spec c sep) as [->|_]; [congruence|]. now rewrite (IH Hl).
Qed.

Lemma split_join (sep : N) (ls : list str) :
  ls <> [] -> Forall (fun l => sep ∉ l) ls -> split sep (join [sep] ls) = ls.
Proof.
  induction ls as [|l ls IH]; [congruence|]. intros _ Hall.
  inversion Hall as [|? ? Hl Hls]; subst.
  destruct ls as [|l' ls]; [now apply split_line|].
  rewrite join_cons by discriminate. simpl app.
  rewrite split_line_sep by assumption. f_equal. now apply IH.
Qed.

(** ** The window of lines *)

Lemma find_seq_first (f : nat -> bool) (n start i : nat) :
  List.find f (seq start n) = Some i
  <-> start <= i < start + n /\ f i = true /\ forall j, start <= j < i -> f j = false.
Proof.
  revert start. induction n as [|n IH]; intros start; simpl.
  - split; [discriminate | lia].
  - destruct (f start) eqn:E.
    + split.
      * intros [= <-]. split; [lia|]. split; [exact E | lia].
      * intros [Hi [_ Hbefore]]. f_equal.
        destruct (decide (start = i)) as [->|Hne]; [reflexivity|].
        rewrite (Hbefore start) in E by lia. discriminate.
    + rewrite IH. split.
      * intros [Hi [Hfi Hbefore]]. split; [lia|]. split; [exact Hfi|].
        intros j Hj. destruct (decide (j = start)) as [->|Hne]; [exact E|].
        apply Hbefore. lia.
      * intros [Hi [Hfi Hbefore]].
        assert (start <> i) by (intros ->; congruence).
        split; [lia|]. split; [exact Hfi|]. intros j Hj. apply Hbefore. lia.
Qed.

Lemma isMatch_trim (oldLines window : list str) :
  isMatch oldLines window = true
  <-> length oldLines <= length window
      /\ trim <$> oldLines = trim <$> take (length oldLines) window.
Proof.
  revert window. induction oldLines as [|o oldLines IH]; intros window; simpl.
  - split; [intros _; split; [lia | reflexivity] | reflexivity].
  - destruct window as [|w window]; simpl.
    + split; [discriminate | lia].
    + rewrite andb_true_iff, bool_decide_eq_true, IH. split.
      * intros [Ht [Hlen Hrest]]. split; [lia|]. f_equal; [exact Ht | exact Hrest].
      * intros [Hlen [= Ht Hrest]]. split; [exact Ht|]. split; [lia | exact Hrest].
Qed.

Lemma length_slice (i n : nat) (l : list str) :
  i + n <= length l -> length (slice i n l) = n.
Proof.
  intros H. unfold slice. rewrite length_take, length_drop. lia.
Qed.

Lemma isMatch_slice (oldLines contentLines : list str) (i : nat) :
  i + length oldLines <= length contentLines ->
  isMatch oldLines (slice i (length oldLines) contentLines) = true
  <-> trim <$> oldLines = trim <$> slice i (length oldLines) contentLines.
Proof.
  intros H. rewrite isMatch_trim, length_slice by exact H.
  unfold slice. rewrite take_take, Nat.min_id. split; [now intros [_ ?] | now split].
Qed.

Lemma findWindow_fits (contentLines oldLines : list str) (i : nat) :
  findWindow contentLines oldLines = Some i -> i + length oldLines <= length contentLines.
Proof.
  unfold findWindow. intros H. apply find_seq_first in H as [Hi _]. lia.
Qed.

(** X5: the window loop finds line [i] exactly when a window of the
    length of the old text fits at [i], its lines equal the old lines once
    both are trimmed, and no window before it does. *)
Theorem findWindow_first_trimmed_match (contentLines oldLines : list str) (i : nat) :
  findWindow contentLines oldLines = Some i
  <-> i + length oldLines <= length contentLines
      /\ trim <$> oldLines = trim <$> slice i (length oldLines) contentLines
      /\ forall j, j < i ->
           trim <$> oldLines <> trim <$> slice j (length oldLines) contentLines.
Proof.
  unfold findWindow. rewrite find_seq_first. split.
  - intros [Hi [Hm Hbefore]].
    assert (i + length oldLines <= length contentLines) as Hfit by lia.
    split; [exact Hfit|]. split; [now apply isMatch_slice|].
    intros j Hj Heq. apply isMatch_slice in Heq; [|lia].
    rewrite Hbefore in Heq by lia. discriminate.
  - intros [Hfit [Hm Hbefore]]. split; [lia|]. split; [now apply isMatch_slice|].
    intros j Hj.
    destruct (isMatch oldLines (slice j (length oldLines) contentLines)) eqn:E;
      [|reflexivity].
    apply isMatch_slice in E; [|lia]. exfalso. apply (Hbefore j); [lia | exact E].
Qed.

Lemma findWindow_exists (contentLines oldLines : list str) (i : nat) :
  i + length oldLines <= length contentLines ->
  trim <$> oldLines = trim <$> slice i (length oldLines) contentLines ->
  exists k, k <= i /\ findWindow contentLines oldLines = Some k.
Proof.
  intros Hfit Hm.
  destruct (findWindow contentLines oldLines) as [k|] eqn:E.
  - exists k. split; [|reflexivity].
    apply find_seq_first in E as [_ [_ Hbefore]].
    destruct (le_lt_dec k i) as [Hle|Hlt]; [exact Hle|].
    apply isMatch_slice in Hm; [|exact Hfit].
    rewrite Hbefore in Hm by lia. discriminate.
  - exfalso. unfold findWindow in E.
    apply find_none with (x := i) in E.
    + apply isMatch_slice in Hm; [|exact Hfit]. congruence.
    + apply in_seq. lia.
Qed.

(** X6: an edit whose old text is found nowhere verbatim is still applied
    when some window of the buffer has the lines of the old text up to
    white space at the ends of the lines: [applyEdit] does not fail. *)
Theorem whitespace_variant_is_applied (buffer : str) (edit : Edit) (i : nat) :
  let oldLines := split Chr.LF (normalizeLineEndings (oldText edit)) in
  let contentLines := split Chr.LF buffer in
  i + length oldLines <= length contentLines ->
  trim <$> oldLines = trim <$> slice i (length oldLines) contentLines ->
  exists content', applyEdit buffer edit = Ok content'.
Proof.
  intros oldLines contentLines Hfit Hm. unfold applyEdit.
  destruct (includes buffer _); [eexists; reflexivity|].
  unfold lineWindowEdit. fold oldLines contentLines.
  destruct (findWindow_exists contentLines oldLines i Hfit Hm) as [k [_ ->]].
  eexists. reflexivity.
Qed.

Lemma whitespace_variant_is_applied_witness :
  applyEdit ([9%N] ++ lit "foo" ++ [Chr.LF; 9%N] ++ lit "bar")
            {| oldText := twoLines "  foo" "  bar"; newText := twoLines "  foo" "  baz" |}
  = Ok ([9%N] ++ lit "foo" ++ [Chr.LF; 9%N] ++ lit "baz").
Proof.
  destruct (whitespace_variant_is_applied
              ([9%N] ++ lit "foo" ++ [Chr.LF; 9%N] ++ lit "bar")
              {| oldText := twoLines "  foo" "  bar"; newText := twoLines "  foo" "  baz" |} 0)
    as [content' H]; [vm_compute; lia | vm_compute; reflexivity |].
  vm_compute. reflexivity.
Defined.

Lemma leadingWhitespace_elem (x : N) (s : str) : x ∈ leadingWhitespace s -> x ∈ s.
Proof.
  induction s as [|c s IH]; simpl; [intros H; exact H|].
  destruct (isWhiteSpace c); [|intros H; now apply not_elem_of_nil in H].
  intros [->|H]%elem_of_cons; [apply list_elem_of_here | apply list_elem_of_further, IH, H].
Qed.

Lemma trimStart_elem (x : N) (s : str) : x ∈ trimStart s -> x ∈ s.
Proof.
  destruct (trimStart_suffix s) as [ws H]. intros Hx. rewrite H.
  apply elem_of_app. now right.
Qed.

Lemma reindent_no_LF (originalIndent : str) (oldLines : list str) (j : nat) (line : str) :
  Chr.LF ∉ originalIndent -> Chr.LF ∉ line ->
  Chr.LF ∉ reindent originalIndent oldLines j line.
Proof.
  intros Hindent Hline.
  assert (Chr.LF ∉ originalIndent ++ trimStart line) as Hfirst.
  { intros [H|H]%elem_of_app; [exact (Hindent H) | exact (Hline (trimStart_elem _ _ H))]. }
  destruct j as [|j]; simpl; [exact Hfirst|].
  destruct (nonEmpty _ && nonEmpty _); [|exact Hline].
  intros [H|[H|H]%elem_of_app]%elem_of_app.
  - exact (Hindent H).
  - apply list_elem_of_In, repeat_spec in H. discriminate.
  - exact (Hline (trimStart_elem _ _ H)).
Qed.

(** X7: when the window at line [i] is the one found, the result of the
    fallback, split into lines again, is the lines before the window, the
    replacement lines and the lines after the window: every line outside
    the window is kept as it is, and the number of lines changes by the
    difference between the line counts of the new and the old text. *)
Theorem lineWindowEdit_keeps_other_lines (buffer normalizedOld normalizedNew : str) (i : nat) :
  let oldLines := split Chr.LF normalizedOld in
  let contentLines := split Chr.LF buffer in
  let newLines := newLinesFor contentLines oldLines normalizedNew i in
  findWindow contentLines oldLines = Some i ->
  exists content',
    lineWindowEdit buffer normalizedOld normalizedNew = Some content'
    /\ split Chr.LF content'
       = take i contentLines ++ newLines ++ drop (i + length oldLines) contentLines
    /\ length (split Chr.LF content') + length oldLines
       = length contentLines + length (split Chr.LF normalizedNew).
Proof.
  intros oldLines contentLines newLines Hfind.
  pose proof (findWindow_fits _ _ _ Hfind) as Hfit.
  unfold lineWindowEdit. fold oldLines contentLines. rewrite Hfind. fold newLines.
  eexists. split; [reflexivity|]. unfold splice.
  assert (Hcontent : Forall (fun l => Chr.LF ∉ l) contentLines) by apply split_no_sep.
  assert (Hnew : Forall (fun l => Chr.LF ∉ l) newLines).
  { apply Forall_forall. intros l Hl. unfold newLines, newLinesFor in Hl.
    apply elem_of_lookup_imap in Hl as (j & line & -> & Hline).
    apply reindent_no_LF.
    - destruct (contentLines !! i) as [first|] eqn:E; simpl; [|apply not_elem_of_nil].
      intros H. apply leadingWhitespace_elem in H.
      apply list_elem_of_lookup_2 in E.
      exact (proj1 (Forall_forall _ _) Hcontent _ E H).
    - apply list_elem_of_lookup_2 in Hline.
      exact (proj1 (Forall_forall _ _) (split_no_sep Chr.LF normalizedNew) _ Hline). }
  assert (Hlen : length newLines = length (split Chr.LF normalizedNew)).
  { unfold newLines, newLinesFor. apply length_imap. }
  split.
  - apply split_join.
    + intros H. apply (f_equal length) in H. rewrite !length_app, Hlen in H.
      pose proof (split_nonempty Chr.LF normalizedNew) as Hne.
      destruct (split Chr.LF normalizedNew); [congruence | simpl in H; lia].
    + rewrite !Forall_app. split_and!;
        [now apply Forall_take | exact Hnew | now apply Forall_drop].
  - rewrite split_join.
    + rewrite !length_app, length_take, length_drop, Hlen. lia.
    + intros H. apply (f_equal length) in H. rewrite !length_app, Hlen in H.
      pose proof (split_nonempty Chr.LF normalizedNew) as Hne.
      destruct (split Chr.LF normalizedNew); [congruence | simpl in H; lia].
    + rewrite !Forall_app. split_and!;
        [now apply Forall_take | exact Hnew | now apply Forall_drop].
Qed.

Lemma lineWindowEdit_keeps_other_lines_witness :
  let buffer := lit "head" ++ [Chr.LF] ++ twoLines "      foo" "        bar"
                ++ [Chr.LF] ++ lit "tail" in
  exists content',
    lineWindowEdit buffer (twoLines "  foo" "    bar") (lit "  one") = Some content'
    /\ split Chr.LF content' = [lit "head"; lit "      one"; lit "tail"].
Proof.
  intros buffer.
  destruct (lineWindowEdit_keeps_other_lines buffer (twoLines "  foo" "    bar")
              (lit "  one") 1) as [content' [Hedit [Hlines _]]];
    [vm_compute; reflexivity|].
  exists content'. split; [exact Hedit|]. rewrite Hlines. vm_compute. reflexivity.
Defined.

(** ** The verbatim strategy *)

Lemma noDollar_normalizeLineEndings (s : str) :
  noDollar s -> noDollar (normalizeLineEndings s).
Proof. unfold noDollar. intros H Hin. exact (H (normalizeLineEndings_elem _ _ Hin)). Qed.

(** X8: when the old text occurs in the buffer and the new text has no
    dollar sign, [applyEdit] puts the new text in the place of the first
    occurrence: what is before and after that occurrence stays, and the
    old text starts at no earlier position. *)
Theorem exact_edit_replaces_first_occurrence (buffer : str) (edit : Edit) :
  let normalizedOld := normalizeLineEndings (oldText edit) in
  let normalizedNew := normalizeLineEndings (newText edit) in
  includes buffer normalizedOld = true ->
  noDollar (newText edit) ->
  exists before after,
    buffer = before ++ normalizedOld ++ after
    /\ applyEdit buffer edit = Ok (before ++ normalizedNew ++ after)
    /\ forall j, j < length before -> startsWith (drop j buffer) normalizedOld = false.
Proof.
  intros normalizedOld normalizedNew Hinc Hdollar.
  unfold applyEdit. fold normalizedOld normalizedNew. rewrite Hinc.
  unfold includes in Hinc.
  destruct (indexOf buffer normalizedOld) as [i|] eqn:Ei; [|discriminate].
  destruct (indexOf_split _ _ _ Ei) as [Hsplit Hfirst].
  pose proof (indexOf_length_bound := f_equal length Hsplit).
  rewrite !length_app, length_take, length_drop in indexOf_length_bound.
  exists (take i buffer), (drop (i + length normalizedOld) buffer).
  split; [exact Hsplit|]. split.
  - unfold replace. rewrite Ei. cbv zeta.
    rewrite getSubstitution_noDollar; [reflexivity|].
    now apply noDollar_normalizeLineEndings.
  - intros j Hj. apply Hfirst. rewrite length_take in Hj. lia.
Qed.

Lemma exact_edit_replaces_first_occurrence_witness :
  applyEdit (lit "a-b-a-b") {| oldText := lit "a"; newText := lit "xy" |}
  = Ok (lit "xy-b-a-b").
Proof.
  destruct (exact_edit_replaces_first_occurrence (lit "a-b-a-b")
              {| oldText := lit "a"; newText := lit "xy" |})
    as (before & after & _ & Hedit & _).
  - vm_compute. reflexivity.
  - unfold noDollar. cbn. intros H. repeat (apply elem_of_cons in H as [H|H]; [discriminate|]).
    now apply not_elem_of_nil in H.
  - vm_compute. reflexivity.
Defined.

(** X9: an edit with an empty old text never fails: it matches at the start
    of every buffer, and the new text (with its dollar patterns expanded
    against an empty match) is put in front of the buffer. *)
Theorem empty_oldText_prepends (buffer new : str) :
  applyEdit buffer {| oldText := []; newText := new |}
  = Ok (getSubstitution [] [] buffer (normalizeLineEndings new) ++ buffer)
  /\ (noDollar new ->
      applyEdit buffer {| oldText := []; newText := new |}
      = Ok (normalizeLineEndings new ++ buffer)).
Proof.
  assert (H : applyEdit buffer {| oldText := []; newText := new |}
              = Ok (getSubstitution [] [] buffer (normalizeLineEndings new) ++ buffer)).
  { unfold applyEdit, includes, replace. cbn [oldText newText normalizeLineEndings].
    destruct buffer; reflexivity. }
  split; [exact H|]. intros Hd. rewrite H, getSubstitution_noDollar; [reflexivity|].
  now apply noDollar_normalizeLineEndings.
Qed.

Lemma empty_oldText_prepends_witness :
  applyEdit (lit "body") {| oldText := []; newText := lit "head " |} = Ok (lit "head body").
Proof.
  rewrite (proj2 (empty_oldText_prepends (lit "body") (lit "head "))); [reflexivity|].
  unfold noDollar. cbn. intros H.
  repeat (apply elem_of_cons in H as [H|H]; [discriminate|]).
  now apply not_elem_of_nil in H.
Defined.

(** ** The outcomes of the sandbox *)

Section SandboxOutcomes.
Context {St : Type}.
Variable P : PathApi.
Variable F : FsApi St.
Variable allowedDirectories : list str.

Lemma validatePath_cases (requestedPath : str) (st : St) :
  let absolute := absoluteOf P requestedPath in
  let parentDir := path_dirname P absolute in
  let allowed := isWithinAllowed allowedDirectories in
  validatePath P F allowedDirectories requestedPath st
  = if negb (allowed (normalizePath P absolute)) then
      Throw (PathOutside allowedDirectories absolute)
    else
      match fs_realpath F absolute st with
      | Ok realPath =>
          if allowed (normalizePath P realPath) then Ok realPath
          else match fs_realpath F parentDir st with
               | Ok realParentPath =>
                   if allowed (normalizePath P realParentPath) then Ok absolute
                   else Throw (ParentUnreachable parentDir)
               | Throw _ => Throw (ParentUnreachable parentDir)
               end
      | Throw _ =>
          match fs_realpath F parentDir st with
          | Ok realParentPath =>
              if allowed (normalizePath P realParentPath) then Ok absolute
              else Throw (ParentUnreachable parentDir)
          | Throw _ => Throw (ParentUnreachable parentDir)
          end
      end.
Proof.
  intros absolute parentDir allowed. unfold validatePath.
  fold (absoluteOf P requestedPath). fold absolute. cbv zeta. fold parentDir. fold allowed.
  destruct (allowed (normalizePath P absolute)); [|reflexivity]. cbn [negb].
  destruct (fs_realpath F absolute st) as [realPath|e]; cbn.
  - destruct (allowed (normalizePath P realPath)); cbn; [reflexivity|].
    destruct (fs_realpath F parentDir st) as [realParentPath|e']; cbn; [|reflexivity].
    destruct (allowed (normalizePath P realParentPath)); reflexivity.
  - destruct (fs_realpath F parentDir st) as [realParentPath|e']; cbn; [|reflexivity].
    destruct (allowed (normalizePath P realParentPath)); reflexivity.
Qed.

Lemma validatePath_outside (requestedPath : str) (st : St) :
  (forall root, root ∈ allowedDirectories ->
     startsWith (normalizePath P (absoluteOf P requestedPath)) root = false) ->
  validatePath P F allowedDirectories requestedPath st
  = Throw (PathOutside allowedDirectories (absoluteOf P requestedPath)).
Proof.
  intros H. rewrite validatePath_cases. cbv zeta.
  now rewrite (isWithinAllowed_false _ _ H).
Qed.

(** X10: a path that [validatePath] returns has an allowed directory as a
    prefix of its canonical request, and is either the real path of the
    request, with an allowed directory as a prefix of its canonical form,
    or the absolute request itself, whose parent directory then resolves
    to a path with an allowed directory as a prefix. *)
Theorem validatePath_returns_allowed (requestedPath validPath : str) (st : St) :
  validatePath P F allowedDirectories requestedPath st = Ok validPath ->
  let absolute := absoluteOf P requestedPath in
  isWithinAllowed allowedDirectories (normalizePath P absolute) = true
  /\ ((fs_realpath F absolute st = Ok validPath
       /\ isWithinAllowed allowedDirectories (normalizePath P validPath) = true)
      \/ (validPath = absolute
          /\ exists realParentPath,
               fs_realpath F (path_dirname P absolute) st = Ok realParentPath
               /\ isWithinAllowed allowedDirectories (normalizePath P realParentPath) = true)).
Proof.
  rewrite validatePath_cases. cbv zeta.
  destruct (isWithinAllowed allowedDirectories (normalizePath P (absoluteOf P requestedPath)));
    [|discriminate]. cbn [negb].
  intros H. split; [reflexivity|].
  destruct (fs_realpath F (absoluteOf P requestedPath) st) as [realPath|e].
  - destruct (isWithinAllowed allowedDirectories (normalizePath P realPath)) eqn:Ereal.
    + injection H as <-. left. split; [reflexivity | exact Ereal].
    + destruct (fs_realpath F _ st) as [realParentPath|e']; [|discriminate].
      destruct (isWithinAllowed allowedDirectories (normalizePath P realParentPath)) eqn:Ep;
        [|discriminate].
      injection H as <-. right. split; [reflexivity|]. exists realParentPath. now split.
  - destruct (fs_realpath F _ st) as [realParentPath|e']; [|discriminate].
    destruct (isWithinAllowed allowedDirectories (normalizePath P realParentPath)) eqn:Ep;
      [|discriminate].
    injection H as <-. right. split; [reflexivity|]. exists realParentPath. now split.
Qed.

(** X11: [validatePath] fails in two ways only: with the access-denied
    error for a canonical request that no allowed directory is a prefix
    of, and otherwise with [ParentUnreachable] of the parent directory.  The
    errors it raises for a link target or a parent directory outside the
    allowed directories never reach its caller. *)
Theorem validatePath_fails_in_two_ways (requestedPath : str) (e : error) (st : St) :
  validatePath P F allowedDirectories requestedPath st = Throw e ->
  let absolute := absoluteOf P requestedPath in
  (e = PathOutside allowedDirectories absolute
   /\ isWithinAllowed allowedDirectories (normalizePath P absolute) = false)
  \/ (e = ParentUnreachable (path_dirname P absolute)
      /\ isWithinAllowed allowedDirectories (normalizePath P absolute) = true).
Proof.
  rewrite validatePath_cases. cbv zeta.
  destruct (isWithinAllowed allowedDirectories (normalizePath P (absoluteOf P requestedPath)));
    cbn [negb].
  - intros H. right. split; [|reflexivity].
    destruct (fs_realpath F (absoluteOf P requestedPath) st) as [realPath|e1].
    + destruct (isWithinAllowed allowedDirectories (normalizePath P realPath));
        [discriminate|].
      destruct (fs_realpath F _ st) as [realParentPath|e2]; [|congruence].
      destruct (isWithinAllowed allowedDirectories (normalizePath P realParentPath));
        congruence.
    + destruct (fs_realpath F _ st) as [realParentPath|e2]; [|congruence].
      destruct (isWithinAllowed allowedDirectories (normalizePath P realParentPath));
        congruence.
  - intros [= <-]. left. split; reflexivity.
Qed.

(** X12: a [copy_file] that succeeds found no entry at the destination:
    [fs.access] of the validated destination failed before anything was
    copied, and the copy is the one of [fs.cp] for a directory and of
    [fs.copyFile] otherwise. *)
Theorem copy_file_success_means_destination_absent
    (source destination out : str) (st st' : St) :
  copy_file P F allowedDirectories source destination st = (st', Ok out) ->
  exists validSource validDest e isDirectory,
    validatePath P F allowedDirectories source st = Ok validSource
    /\ validatePath P F allowedDirectories destination st = Ok validDest
    /\ fs_access F validDest st = Throw e
    /\ includes (message e) (lit "already exists") = false
    /\ fs_stat_isDirectory F validSource st = Ok isDirectory
    /\ (if isDirectory : bool
        then fs_cp_recursive F validSource validDest st
        else fs_copyFile F validSource validDest st) = (st', Ok tt)
    /\ out = lit "Successfully copied " ++ source ++ lit " to " ++ destination.
Proof.
  unfold copy_file, abind, query, atryCatch, athrow, aret.
  destruct (validatePath P F allowedDirectories source st) as [validSource|e]; [|discriminate].
  destruct (validatePath P F allowedDirectories destination st) as [validDest|e];
    [|discriminate].
  destruct (fs_access F validDest st) as [[]|e] eqn:Ea.
  - cbn [message AlreadyExists]. rewrite includes_app_l by reflexivity. discriminate.
  - destruct (includes (message e) (lit "already exists")) eqn:Ei; [discriminate|].
    destruct (fs_stat_isDirectory F validSource st) as [isDirectory|e'] eqn:Es;
      [|discriminate].
    intros H. exists validSource, validDest, e, isDirectory.
    do 5 (split; [reflexivity || assumption|]).
    destruct isDirectory.
    + destruct (fs_cp_recursive F validSource validDest st) as [st'' [[]|e']];
        [|discriminate]. injection H as <- <-. split; reflexivity.
    + destruct (fs_copyFile F validSource validDest st) as [st'' [[]|e']];
        [|discriminate]. injection H as <- <-. split; reflexivity.
Qed.

(** X13: [copy_file] is also refused, with the error of [fs.access] and
    nothing copied, when the destination does not exist but the message of
    that error contains the words [already exists], as it does when the
    path itself contains them. *)
Theorem copy_file_refused_by_access_message
    (source destination validSource validDest : str) (e : error) (st : St) :
  validatePath P F allowedDirectories source st = Ok validSource ->
  validatePath P F allowedDirectories destination st = Ok validDest ->
  fs_access F validDest st = Throw e ->
  includes (message e) (lit "already exists") = true ->
  copy_file P F allowedDirectories source destination st = (st, Throw e).
Proof.
  intros Hs Hd Ha Hi. unfold copy_file, abind, query, atryCatch, athrow.
  now rewrite Hs, Hd, Ha, Hi.
Qed.

End SandboxOutcomes.

Lemma validatePath_returns_allowed_witness :
  validatePath posix MemFs.api roots (lit "/data/new.txt") sampleDisk = Ok (lit "/data/new.txt")
  /\ fs_realpath MemFs.api (lit "/data") sampleDisk = Ok (lit "/data").
Proof.
  assert (H : validatePath posix MemFs.api roots (lit "/data/new.txt") sampleDisk
              = Ok (lit "/data/new.txt")) by (vm_compute; reflexivity).
  split; [exact H|].
  destruct (validatePath_returns_allowed posix MemFs.api roots _ _ _ H)
    as [_ [[Hreal _]|[_ [realParentPath [Hparent _]]]]].
  - vm_compute in Hreal. discriminate.
  - vm_compute. reflexivity.
Defined.

Lemma validatePath_fails_in_two_ways_witness :
  validatePath posix MemFs.api roots (lit "/data/x/y") sampleDisk
  = Throw (ParentUnreachable (lit "/data/x")).
Proof.
  assert (H : validatePath posix MemFs.api roots (lit "/data/x/y") sampleDisk
              = Throw (ParentUnreachable (lit "/data/x"))) by (vm_compute; reflexivity).
  destruct (validatePath_fails_in_two_ways posix MemFs.api roots _ _ _ H) as [[_ Ho]|[_ _]];
    [vm_compute in Ho; discriminate | exact H].
Defined.

Lemma copy_file_success_means_destination_absent_witness :
  let run := copy_file posix MemFs.api roots (lit "/data/a.txt") (lit "/data/c.txt") sampleDisk in
  run.2 = Ok (lit "Successfully copied /data/a.txt to /data/c.txt")
  /\ sampleDisk !! lit "/data/c.txt" = None
  /\ run.1 !! lit "/data/c.txt" = Some (File (lit "alpha")).
Proof.
  intros run.
  assert (H : copy_file posix MemFs.api roots (lit "/data/a.txt") (lit "/data/c.txt") sampleDisk
              = (run.1, Ok (lit "Successfully copied /data/a.txt to /data/c.txt")))
    by (vm_compute; reflexivity).
  destruct (copy_file_success_means_destination_absent posix MemFs.api roots _ _ _ _ _ H)
    as (validSource & validDest & e & isDirectory & _).
  split_and!; vm_compute; reflexivity.
Defined.

Lemma copy_file_refused_by_access_message_witness :
  copy_file posix MemFs.api roots (lit "/data/a.txt") (lit "/data/already exists.txt") sampleDisk
  = (sampleDisk, Throw (MemFs.ENOENT (lit "/data/already exists.txt"))).
Proof.
  apply (copy_file_refused_by_access_message posix MemFs.api roots _ _
           (lit "/data/a.txt") (lit "/data/already exists.txt")); vm_compute; reflexivity.
Defined.

(** ** The walkers *)

Section WalkerProperties.
Context {St : Type}.
Variable P : PathApi.
Variable P' : PathApiMore.
Variable F : FsApi St.
Variable F' : FsApiMore St.
Variable B : Builtins.
Variable allowedDirectories : list str.

Local Abbreviation searched := (searchedBy P P' F F' B allowedDirectories).
Local Abbreviation reported := (reportedBy P P' F F' B allowedDirectories).


Lemma searchEntries_reported
    (recurse : str -> list str -> option (list str * result unit))
    (rootPath pattern : str) (excludePatterns : list str) (currentPath : str)
    (listing entries : list Dirent) (st : St) :
  searched rootPath excludePatterns st currentPath ->
  fs_readdir F' currentPath st = Ok listing ->
  (forall dir results results' r,
     searched rootPath excludePatterns st dir ->
     Forall (reported rootPath pattern excludePatterns st) results ->
     recurse dir results = Some (results', r) ->
     Forall (reported rootPath pattern excludePatterns st) results') ->
  (forall entry, entry ∈ entries -> entry ∈ listing) ->
  forall results results' r,
    Forall (reported rootPath pattern excludePatterns st) results ->
    searchEntries P P' F B allowedDirectories recurse rootPath pattern excludePatterns
                  currentPath entries results st = Some (results', r) ->
    Forall (reported rootPath pattern excludePatterns st) results'.
Proof.
  intros Hdir Hlist Hrec.
  induction entries as [|entry entries IH]; intros Hsub results results' r Hall.
  - intros [= <- _]. exact Hall.
  - assert (Hentry : entry ∈ listing) by apply Hsub, list_elem_of_here.
    assert (IH' := IH (fun e He => Hsub e (list_elem_of_further _ _ _ He))).
    clear IH. cbn [searchEntries].
    destruct (validatePath _ _ _ _ _) as [validPath|e] eqn:Ev; [|now apply IH'].
    destruct (shouldExclude _ _ _) eqn:Ex; [now apply IH'|].
    assert (Hall1 : Forall (reported rootPath pattern excludePatterns st)
              (if includes (toLowerCase B (dirent_name entry)) (toLowerCase B pattern)
               then results ++ [path_join P [currentPath; dirent_name entry]]
               else results)).
    { destruct (includes _ _) eqn:Ei; [|exact Hall].
      apply Forall_app. split; [exact Hall|]. constructor; [|constructor].
      exists currentPath, listing, entry, validPath. now split_and!. }
    destruct (dirent_isDirectory entry) eqn:Ed; [|now apply IH'].
    destruct (recurse _ _) as [[results2 r2]|] eqn:Er; [|discriminate].
    apply IH'. refine (Hrec _ _ _ _ _ Hall1 Er).
    exact (searched_below _ _ _ _ _ _ _ _ _ _ _ _ _ Hdir Hlist Hentry Ed Ev Ex).
Qed.

Lemma search_reported (depth : nat) (rootPath pattern : str) (excludePatterns : list str)
    (st : St) :
  forall currentPath results results' r,
    searched rootPath excludePatterns st currentPath ->
    Forall (reported rootPath pattern excludePatterns st) results ->
    search P P' F F' B allowedDirectories depth rootPath pattern excludePatterns st
           currentPath results = Some (results', r) ->
    Forall (reported rootPath pattern excludePatterns st) results'.
Proof.
  induction depth as [|depth IH]; intros currentPath results results' r Hdir Hall;
    [discriminate|].
  cbn [search]. destruct (fs_readdir F' currentPath st) as [entries|e] eqn:Hlist.
  - apply (searchEntries_reported _ _ _ _ _ entries entries _ Hdir Hlist); auto.
  - intros [= <- _]. exact Hall.
Qed.



(** X15: every path that [searchFiles] returns is the join of a directory
    and the name of an entry in the listing of that directory, where the
    directory is the root or is reached from the root through listed
    directory entries that each passed [validatePath] and no exclusion
    pattern; the path itself passed [validatePath], the name of the entry
    contains the pattern once both are in lower case, and no exclusion
    pattern matches the path relative to the root. *)
Theorem searchFiles_reports_checked_paths
    (depth : nat) (rootPath pattern : str) (excludePatterns : list str) (st : St)
    (results : list str) :
  searchFiles P P' F F' B allowedDirectories depth rootPath pattern excludePatterns st
  = Some (Ok results) ->
  Forall (reported rootPath pattern excludePatterns st) results.
Proof.
  unfold searchFiles.
  destruct (search _ _ _ _ _ _ _ _ _ _ _ _ _) as [[results' [[]|e]]|] eqn:Es; try discriminate.
  intros [= <-].
  exact (search_reported _ _ _ _ _ _ _ _ _ (searched_root _ _ _ _ _ _ _ _ _)
                         (Forall_nil_2 _) Es).
Qed.

(** *** The tree *)

Lemma buildEntries_ends (recurse : str -> option (result (list treeEntry)))
    (currentPath : str) (entries : list Dirent) :
  (forall entry, entry ∈ entries -> dirent_isDirectory entry = true ->
     is_Some (recurse (path_join P [currentPath; dirent_name entry]))) ->
  forall collected, is_Some (buildEntries P recurse currentPath entries collected).
Proof.
  induction entries as [|entry entries IH]; intros Hrec collected; [eexists; reflexivity|].
  assert (Hrest : forall c, is_Some (buildEntries P recurse currentPath entries c)).
  { apply IH. intros e He. apply Hrec. now apply list_elem_of_further. }
  cbn [buildEntries]. destruct (dirent_isDirectory entry) eqn:Ed; [|apply Hrest].
  destruct (Hrec entry (list_elem_of_here _ _) Ed) as [[children|e] ->];
    [apply Hrest | eexists; reflexivity].
Qed.

(** X16: when the directories below the path nest less than [depth] deep,
    [buildTree] ends within [depth] nested calls, with a tree or with an
    error. *)
Theorem buildTree_ends (depth : nat) (st : St) (currentPath : str) :
  treeNestingWithin P F F' allowedDirectories st depth currentPath ->
  is_Some (buildTree P F F' allowedDirectories depth st currentPath).
Proof.
  revert currentPath. induction depth as [|depth IH]; intros currentPath Hnest;
    [destruct Hnest|].
  cbn [buildTree].
  destruct (validatePath P F allowedDirectories currentPath st) as [validPath|e] eqn:Ev;
    [|eexists; reflexivity].
  destruct (fs_readdir F' validPath st) as [entries|e] eqn:Er; [|eexists; reflexivity].
  apply buildEntries_ends. intros entry Hin Hd. apply IH.
  exact (Hnest validPath entries entry Ev Er Hin Hd).
Qed.

Lemma forallb_app_true {A : Type} (f : A -> bool) (l k : list A) :
  forallb f l = true -> forallb f k = true -> forallb f (l ++ k) = true.
Proof. intros Hl Hk. rewrite forallb_app, Hl, Hk. reflexivity. Qed.

Lemma buildEntries_shape (recurse : str -> option (result (list treeEntry)))
    (currentPath : str) (entries : list Dirent) :
  (forall dir tree, recurse dir = Some (Ok tree) -> forallb wellShaped tree = true) ->
  forall collected tree,
    forallb wellShaped collected = true ->
    buildEntries P recurse currentPath entries collected = Some (Ok tree) ->
    forallb wellShaped tree = true
    /\ entryName <$> tree = (entryName <$> collected) ++ (dirent_name <$> entries)
    /\ entryIsDirectory <$> tree
       = (entryIsDirectory <$> collected) ++ (dirent_isDirectory <$> entries).
Proof.
  intros Hrec. induction entries as [|entry entries IH]; intros collected tree Hc.
  - intros [= <-]. rewrite !app_nil_r. now split_and!.
  - cbn [buildEntries]. destruct (dirent_isDirectory entry) eqn:Ed.
    + destruct (recurse _) as [[children|e]|] eqn:Er; try discriminate.
      intros H. apply IH in H.
      * destruct H as (Hs & Hn & Hd). split; [exact Hs|].
        rewrite Hn, Hd, !fmap_app, <- !app_assoc. cbn. rewrite Ed. now split.
      * apply forallb_app_true; [exact Hc|]. cbn.
        rewrite (Hrec _ _ Er). reflexivity.
    + intros H. apply IH in H.
      * destruct H as (Hs & Hn & Hd). split; [exact Hs|].
        rewrite Hn, Hd, !fmap_app, <- !app_assoc. cbn. rewrite Ed. now split.
      * apply forallb_app_true; [exact Hc | reflexivity].
Qed.

Lemma buildTree_wellShaped (depth : nat) (st : St) :
  forall currentPath tree,
    buildTree P F F' allowedDirectories depth st currentPath = Some (Ok tree) ->
    forallb wellShaped tree = true.
Proof.
  induction depth as [|depth IH]; intros currentPath tree; [discriminate|].
  cbn [buildTree].
  destruct (validatePath P F allowedDirectories currentPath st) as [validPath|e];
    [|discriminate].
  destruct (fs_readdir F' validPath st) as [entries|e]; [|discriminate].
  intros H. apply (buildEntries_shape _ currentPath entries IH [] tree eq_refl H).
Qed.

(** X17: in a tree that [buildTree] returns, at every level, an entry of
    type [file] has no [children] and an entry with [children] has type
    [directory]; the top level has one entry for each entry of the listing
    of the validated path, in the order of the listing, with its name and
    with [children] exactly for the directories. *)
Theorem buildTree_shape (depth : nat) (st : St) (currentPath : str) (tree : list treeEntry) :
  buildTree P F F' allowedDirectories depth st currentPath = Some (Ok tree) ->
  forallb wellShaped tree = true
  /\ exists validPath entries,
       validatePath P F allowedDirectories currentPath st = Ok validPath
       /\ fs_readdir F' validPath st = Ok entries
       /\ entryName <$> tree = dirent_name <$> entries
       /\ entryIsDirectory <$> tree = dirent_isDirectory <$> entries.
Proof.
  intros H. split; [exact (buildTree_wellShaped _ _ _ _ H)|].
  destruct depth as [|depth]; [discriminate|]. cbn [buildTree] in H.
  destruct (validatePath P F allowedDirectories currentPath st) as [validPath|e] eqn:Ev;
    [|discriminate].
  destruct (fs_readdir F' validPath st) as [entries|e] eqn:Er; [|discriminate].
  exists validPath, entries. split; [reflexivity|]. split; [exact Er|].
  destruct (buildEntries_shape _ currentPath entries (buildTree_wellShaped depth st)
              [] tree eq_refl H) as (_ & Hn & Hd).
  now split.
Qed.

(** X18: [buildTree] gives up on the whole tree when a directory in it
    cannot be validated or listed: when the directories listed before it
    are built, the error of that directory is the error of the call, and
    what was built is dropped. *)
Theorem buildTree_fails_as_a_whole
    (depth : nat) (st : St) (currentPath validPath : str)
    (before after : list Dirent) (entry : Dirent) (e : error) :
  validatePath P F allowedDirectories currentPath st = Ok validPath ->
  fs_readdir F' validPath st = Ok (before ++ entry :: after) ->
  Forall (fun b => dirent_isDirectory b = true ->
                   exists children,
                     buildTree P F F' allowedDirectories depth st
                               (path_join P [currentPath; dirent_name b])
                     = Some (Ok children)) before ->
  dirent_isDirectory entry = true ->
  buildTree P F F' allowedDirectories depth st (path_join P [currentPath; dirent_name entry])
  = Some (Throw e) ->
  buildTree P F F' allowedDirectories (S depth) st currentPath = Some (Throw e).
Proof.
  intros Hv Hr Hbefore Hd Hsub. cbn [buildTree]. rewrite Hv, Hr. clear Hr.
  generalize (@nil treeEntry) as collected.
  induction Hbefore as [|b before Hb _ IH]; intros collected; cbn [app buildEntries].
  - now rewrite Hd, Hsub.
  - destruct (dirent_isDirectory b); [|apply IH].
    destruct (Hb eq_refl) as [children ->]. apply IH.
Qed.

End WalkerProperties.

(** ** The trash *)

(** X19: the time stamp that [delete_file] puts into a name has the length
    of the ISO time and neither a colon nor a dot in it; the characters
    that are neither are kept. *)
Theorem dashed_has_no_colon_or_dot (timestamp : str) :
  length (dashed timestamp) = length timestamp
  /\ (58%N ∉ dashed timestamp) /\ (46%N ∉ dashed timestamp)
  /\ forall i c, timestamp !! i = Some c -> c <> 58%N -> c <> 46%N ->
                 dashed timestamp !! i = Some c.
Proof.
  unfold dashed. split_and!.
  - apply length_fmap.
  - intros [c [Hc _]]%list_elem_of_fmap.
    destruct (N.eqb_spec c 58); [simpl in Hc; discriminate|].
    destruct (N.eqb_spec c 46); simpl in Hc; [discriminate | congruence].
  - intros [c [Hc _]]%list_elem_of_fmap.
    destruct (N.eqb_spec c 58); [simpl in Hc; discriminate|].
    destruct (N.eqb_spec c 46); simpl in Hc; [discriminate | congruence].
  - intros i c Hi H58 H46. rewrite list_lookup_fmap, Hi. cbn.
    destruct (N.eqb_spec c 58); [congruence|].
    destruct (N.eqb_spec c 46); [congruence | reflexivity].
Qed.

Section Trash.
Context {St : Type}.
Variable P : PathApi.
Variable P' : PathApiMore.
Variable F : FsApi St.
Variable F' : FsApiMore St.
Variable B : Builtins.
Variable allowedDirectories : list str.

Lemma chooseTrashPath_query (trashDir fileName : str) (st : St) :
  exists trashPath,
    chooseTrashPath P P' F B trashDir fileName st = (st, Ok trashPath)
    /\ (trashPath = path_join P [trashDir; fileName]
        \/ (fs_access F (path_join P [trashDir; fileName]) st = Ok tt
            /\ trashPath
               = path_join P [trashDir;
                              path_basename_without P' fileName (path_extname P' fileName)
                              ++ lit "_" ++ dashed (nowISOString B)
                              ++ path_extname P' fileName])).
Proof.
  unfold chooseTrashPath, atryCatch, abind, query, aret.
  destruct (fs_access F (path_join P [trashDir; fileName]) st) as [[]|e].
  - eexists. split; [reflexivity|]. right. split; reflexivity.
  - eexists. split; [reflexivity|]. now left.
Qed.

(** X20: [delete_file] refuses a path whose canonical form starts with the
    canonical trash directory of its root, before it creates the trash
    directory or touches anything: the disk is as it was. *)
Theorem delete_file_refuses_trashed (path validPath workspaceRoot : str) (st : St) :
  validatePath P F allowedDirectories path st = Ok validPath ->
  List.find (fun dir => startsWith validPath dir) allowedDirectories = Some workspaceRoot ->
  startsWith (normalizePath P validPath)
             (normalizePath P (path_join P [workspaceRoot; lit "Trash"])) = true ->
  delete_file P P' F F' B allowedDirectories path st = (st, Throw (AlreadyTrashed validPath)).
Proof.
  intros Hv Hroot Htrash. unfold delete_file, abind at 1, query at 1.
  now rewrite Hv, Hroot, Htrash.
Qed.

(** X21: a [delete_file] that succeeds has copied before it removed: the
    item was copied to its place in the trash directory, with [fs.cp] or
    [fs.copyFile], that copy succeeded, and only then was the original
    removed, from the disk the copy left.  The place is the trash
    directory joined with the name of the item, or with its name extended
    by the time stamp when the first was taken. *)
Theorem delete_file_copies_then_removes (path out : str) (st st' : St) :
  delete_file P P' F F' B allowedDirectories path st = (st', Ok out) ->
  exists validPath workspaceRoot trashPath isDirectory st1 st2,
    validatePath P F allowedDirectories path st = Ok validPath
    /\ List.find (fun dir => startsWith validPath dir) allowedDirectories = Some workspaceRoot
    /\ fs_mkdir_recursive F' (path_join P [workspaceRoot; lit "Trash"]) st = (st1, Ok tt)
    /\ chooseTrashPath P P' F B (path_join P [workspaceRoot; lit "Trash"])
                       (path_basename P' validPath) st1 = (st1, Ok trashPath)
    /\ fs_stat_isDirectory F validPath st1 = Ok isDirectory
    /\ (if isDirectory : bool
        then fs_cp_recursive F validPath trashPath st1
        else fs_copyFile F validPath trashPath st1) = (st2, Ok tt)
    /\ fs_rm_recursive_force F' validPath st2 = (st', Ok tt)
    /\ out = lit "Successfully moved " ++ path ++ lit " to " ++ trashPath.
Proof.
  unfold delete_file, abind at 1, query at 1.
  destruct (validatePath P F allowedDirectories path st) as [validPath|e]; [|discriminate].
  destruct (List.find _ allowedDirectories) as [workspaceRoot|] eqn:Eroot; [|discriminate].
  cbv zeta. destruct (startsWith _ _); [discriminate|].
  unfold abind at 1.
  destruct (fs_mkdir_recursive F' _ st) as [st1 [[]|e]] eqn:Emk; [|discriminate].
  unfold abind at 1.
  destruct (chooseTrashPath_query (path_join P [workspaceRoot; lit "Trash"])
              (path_basename P' validPath) st1) as [trashPath [Hchoose _]].
  rewrite Hchoose. unfold abind at 1, query at 1.
  destruct (fs_stat_isDirectory F validPath st1) as [isDirectory|e] eqn:Estat; [|discriminate].
  unfold abind at 1.
  assert (Hcopy : forall copy : Async St unit,
            (let (st2, r) := copy st1 in
             match r with
             | Ok a =>
                 abind (fs_rm_recursive_force F' validPath)
                   (fun _ => aret (lit "Successfully moved " ++ path ++ lit " to " ++ trashPath))
                   st2
             | Throw e => (st2, Throw e)
             end) = (st', Ok out) ->
            exists st2, copy st1 = (st2, Ok tt)
                        /\ fs_rm_recursive_force F' validPath st2 = (st', Ok tt)
                        /\ out = lit "Successfully moved " ++ path ++ lit " to " ++ trashPath).
  { intros copy. destruct (copy st1) as [st2 [[]|e]] eqn:Ec; [|discriminate].
    unfold abind, aret.
    destruct (fs_rm_recursive_force F' validPath st2) as [st3 [[]|e]] eqn:Erm;
      [|discriminate].
    intros [= <- <-]. exists st2. split_and!; first [reflexivity | assumption]. }
  intros H.
  exists validPath, workspaceRoot, trashPath, isDirectory, st1.
  destruct isDirectory; apply Hcopy in H as (st2 & Hc & Hrm & Hout); exists st2;
    split_and!; first [reflexivity | assumption].
Qed.

(** X22: when the copy into the trash fails, [delete_file] fails with the
    error of the copy and does not remove the original: the disk is the
    one the failed copy left. *)
Theorem delete_file_keeps_original_when_copy_fails
    (path validPath workspaceRoot trashPath : str) (isDirectory : bool)
    (e : error) (st st1 st2 : St) :
  validatePath P F allowedDirectories path st = Ok validPath ->
  List.find (fun dir => startsWith validPath dir) allowedDirectories = Some workspaceRoot ->
  startsWith (normalizePath P validPath)
             (normalizePath P (path_join P [workspaceRoot; lit "Trash"])) = false ->
  fs_mkdir_recursive F' (path_join P [workspaceRoot; lit "Trash"]) st = (st1, Ok tt) ->
  chooseTrashPath P P' F B (path_join P [workspaceRoot; lit "Trash"])
                  (path_basename P' validPath) st1 = (st1, Ok trashPath) ->
  fs_stat_isDirectory F validPath st1 = Ok isDirectory ->
  (if isDirectory
   then fs_cp_recursive F validPath trashPath st1
   else fs_copyFile F validPath trashPath st1) = (st2, Throw e) ->
  delete_file P P' F F' B allowedDirectories path st = (st2, Throw e).
Proof.
  intros Hv Hroot Htrash Hmk Hchoose Hstat Hcopy.
  unfold delete_file, abind at 1, query at 1. rewrite Hv, Hroot. cbv zeta. rewrite Htrash.
  unfold abind at 1. rewrite Hmk. unfold abind at 1. rewrite Hchoose.
  unfold abind at 1, query at 1. rewrite Hstat. unfold abind at 1.
  destruct isDirectory; now rewrite Hcopy.
Qed.

End Trash.

(** ** The request handler *)

Section RequestHandler.
Context {St : Type}.
Variable P : PathApi.
Variable P' : PathApiMore.
Variable F : FsApi St.
Variable F' : FsApiMore St.
Variable B : Builtins.
Variable allowedDirectories : list str.
Variable K : Packages.

Local Abbreviation call := (callTool P P' F F' B allowedDirectories K).

(** X23: whichever tool is called, when no allowed directory is a prefix of
    the canonical form of the path the tool validates first, the answer is
    the access-denied error of that path, flagged as an error, and the disk
    is as it was. *)
Theorem callTool_denies_path_outside (depth : nat) (r : request) (path : str) (st : St) :
  primaryPath r = Some path ->
  (forall root, root ∈ allowedDirectories ->
     startsWith (normalizePath P (absoluteOf P path)) root = false) ->
  call (S depth) r st
  = Some (st, {| text := lit "Error: "
                         ++ message (PathOutside allowedDirectories (absoluteOf P path));
                 isError := true |}).
Proof.
  intros Hpath Hout.
  pose proof (validatePath_outside P F allowedDirectories path st Hout) as Hv.
  destruct r; cbn in Hpath; try discriminate; injection Hpath as ->;
    unfold callTool, dispatch, read_file, write_file, edit_file, create_directory,
      list_directory, directory_tree, move_file, copy_file, delete_file, search_files,
      get_file_info, abind, query;
    cbn [buildTree]; now rewrite Hv.
Qed.

(** X24: [move_file] and [copy_file] with a validated source are refused
    in the same way, with the disk as it was, when no allowed directory is
    a prefix of the canonical form of the destination. *)
Theorem callTool_denies_destination_outside
    (depth : nat) (r : request) (source destination validSource : str) (st : St) :
  secondPath r = Some (source, destination) ->
  validatePath P F allowedDirectories source st = Ok validSource ->
  (forall root, root ∈ allowedDirectories ->
     startsWith (normalizePath P (absoluteOf P destination)) root = false) ->
  call depth r st
  = Some (st, {| text := lit "Error: "
                         ++ message (PathOutside allowedDirectories (absoluteOf P destination));
                 isError := true |}).
Proof.
  intros Hpaths Hsource Hout.
  pose proof (validatePath_outside P F allowedDirectories destination st Hout) as Hv.
  destruct r; cbn in Hpaths; try discriminate; injection Hpaths as -> ->;
    unfold callTool, dispatch, move_file, copy_file, abind, query;
    now rewrite Hsource, Hv.
Qed.

(** X25: [read_multiple_files] never fails and leaves the disk as it is:
    the answer has one block for each requested path, in order, separated
    by lines of three dashes; the block of a path that cannot be validated
    or read is the path with the message of its error, and the block of a
    path that is read is the path with the content. *)
Theorem read_multiple_files_reports_each_path (depth : nat) (paths : list str) (st : St) :
  exists blocks,
    call depth (ReadMultipleFiles paths) st
    = Some (st, {| text := join ([Chr.LF] ++ lit "---" ++ [Chr.LF]) blocks;
                   isError := false |})
    /\ length blocks = length paths
    /\ forall i path,
         paths !! i = Some path ->
         match validatePath P F allowedDirectories path st with
         | Throw e => blocks !! i = Some (path ++ lit ": Error - " ++ message e)
         | Ok validPath =>
             match fs_readFile F validPath st with
             | Throw e => blocks !! i = Some (path ++ lit ": Error - " ++ message e)
             | Ok content =>
                 blocks !! i = Some (path ++ lit ":" ++ [Chr.LF] ++ content ++ [Chr.LF])
             end
         end.
Proof.
  exists (readOne P F allowedDirectories st <$> paths). split_and!.
  - reflexivity.
  - apply length_fmap.
  - intros i path Hi. rewrite list_lookup_fmap, Hi. unfold readOne. cbn.
    destruct (validatePath P F allowedDirectories path st) as [validPath|e]; cbn;
      [|reflexivity].
    destruct (fs_readFile F validPath st); reflexivity.
Qed.

End RequestHandler.

(** ** Runs on the disk with a tree *)

(** The nesting of a disk in memory is settled by listing it. *)
Ltac list_entries :=
  let Hr := fresh "Hr" in
  let Hin := fresh "Hin" in
  let Hd := fresh "Hd" in
  intros ? ? Hr Hin Hd;
  vm_compute in Hr; injection Hr as <-;
  repeat (apply elem_of_cons in Hin as [->|Hin]);
  try (now apply not_elem_of_nil in Hin);
  try discriminate Hd; clear Hd.



(** The one match for [notes] below [/data] is an entry of the listing of
    [/data/sub], itself a directory entry of the root. *)
Lemma searchFiles_reports_checked_paths_witness :
  searchFiles posix posixMore MemFs.api MemFsMore.api builtins roots 3
              (lit "/data") (lit "notes") [] treeDisk
  = Some (Ok [lit "/data/sub/Notes.TXT"])
  /\ Forall (reportedBy posix posixMore MemFs.api MemFsMore.api builtins roots
                        (lit "/data") (lit "notes") [] treeDisk)
            [lit "/data/sub/Notes.TXT"].
Proof.
  assert (H : searchFiles posix posixMore MemFs.api MemFsMore.api builtins roots 3
                (lit "/data") (lit "notes") [] treeDisk
              = Some (Ok [lit "/data/sub/Notes.TXT"])) by (vm_compute; reflexivity).
  split; [exact H|].
  exact (searchFiles_reports_checked_paths posix posixMore MemFs.api MemFsMore.api builtins
           roots _ _ _ _ _ _ H).
Defined.

Ltac validate_then_list :=
  let Hv := fresh "Hv" in
  intros validPath entries entry Hv; vm_compute in Hv; injection Hv as <-;
  revert entries entry; list_entries.

Lemma treeDisk_tree_nesting :
  treeNestingWithin posix MemFs.api MemFsMore.api roots treeDisk 3 (lit "/data").
Proof.
  validate_then_list.
  - validate_then_list.
  - validate_then_list. validate_then_list.
Qed.

Lemma buildTree_ends_witness :
  is_Some (buildTree posix MemFs.api MemFsMore.api roots 3 treeDisk (lit "/data")).
Proof. exact (buildTree_ends posix MemFs.api MemFsMore.api roots 3 treeDisk _ treeDisk_tree_nesting). Defined.

Lemma buildTree_shape_witness :
  exists tree,
    buildTree posix MemFs.api MemFsMore.api roots 3 treeDisk (lit "/data") = Some (Ok tree)
    /\ forallb wellShaped tree = true
    /\ entryName <$> tree = [lit "a.txt"; lit "Trash"; lit "sub"]
    /\ entryIsDirectory <$> tree = [false; true; true].
Proof.
  destruct (buildTree posix MemFs.api MemFsMore.api roots 3 treeDisk (lit "/data"))
    as [[tree|e]|] eqn:E; [|vm_compute in E; discriminate..].
  exists tree. split; [reflexivity|].
  destruct (buildTree_shape posix MemFs.api MemFsMore.api roots _ _ _ _ E)
    as (Hshape & validPath & entries & Hv & Hr & Hn & Hd).
  vm_compute in Hv. injection Hv as <-. vm_compute in Hr. injection Hr as <-.
  split; [exact Hshape|]. split; [rewrite Hn | rewrite Hd]; reflexivity.
Defined.

Lemma buildTree_fails_as_a_whole_witness :
  buildTree posix MemFs.api (MemFsMore.apiDenying (lit "/data/sub")) roots 3 treeDisk (lit "/data")
  = Some (Throw (MemFsMore.EACCES (lit "/data/sub"))).
Proof.
  apply (buildTree_fails_as_a_whole posix MemFs.api (MemFsMore.apiDenying (lit "/data/sub"))
           roots 2 treeDisk (lit "/data") (lit "/data")
           [{| dirent_name := lit "a.txt"; dirent_isDirectory := false |};
            {| dirent_name := lit "Trash"; dirent_isDirectory := true |}]
           []
           {| dirent_name := lit "sub"; dirent_isDirectory := true |}).
  - vm_compute. reflexivity.
  - vm_compute. reflexivity.
  - repeat constructor; [discriminate|]. intros _. eexists. vm_compute. reflexivity.
  - reflexivity.
  - vm_compute. reflexivity.
Defined.

Lemma delete_file_refuses_trashed_witness :
  delete_file posix posixMore MemFs.api MemFsMore.api builtins roots
              (lit "/data/Trash/a.txt") treeDisk
  = (treeDisk, Throw (AlreadyTrashed (lit "/data/Trash/a.txt"))).
Proof.
  apply (delete_file_refuses_trashed posix posixMore MemFs.api MemFsMore.api builtins roots
           (lit "/data/Trash/a.txt") (lit "/data/Trash/a.txt") (lit "/data"));
    vm_compute; reflexivity.
Defined.

Lemma delete_file_copies_then_removes_witness :
  let run := delete_file posix posixMore MemFs.api MemFsMore.api builtins roots
                         (lit "/data/a.txt") treeDisk in
  run.2 = Ok (lit "Successfully moved /data/a.txt to /data/Trash/a_2025-10-14T09-30-15-123Z.txt")
  /\ run.1 !! lit "/data/a.txt" = None
  /\ run.1 !! lit "/data/Trash/a_2025-10-14T09-30-15-123Z.txt" = Some (File (lit "alpha"))
  /\ run.1 !! lit "/data/Trash/a.txt" = Some (File (lit "old")).
Proof.
  intros run.
  assert (H : delete_file posix posixMore MemFs.api MemFsMore.api builtins roots
                (lit "/data/a.txt") treeDisk
              = (run.1, Ok (lit "Successfully moved /data/a.txt to /data/Trash/a_2025-10-14T09-30-15-123Z.txt")))
    by (vm_compute; reflexivity).
  destruct (delete_file_copies_then_removes posix posixMore MemFs.api MemFsMore.api builtins
              roots _ _ _ _ H)
    as (validPath & workspaceRoot & trashPath & isDirectory & st1 & st2 & _).
  split_and!; vm_compute; reflexivity.
Defined.

Lemma delete_file_keeps_original_when_copy_fails_witness :
  let run := delete_file posix posixMore MemFsMore.apiFull MemFsMore.api builtins roots
                         (lit "/data/a.txt") treeDisk in
  run = (treeDisk,
         Throw (MemFsMore.ENOSPC (lit "/data/Trash/a_2025-10-14T09-30-15-123Z.txt")))
  /\ run.1 !! lit "/data/a.txt" = Some (File (lit "alpha")).
Proof.
  intros run. split; [|vm_compute; reflexivity].
  apply (delete_file_keeps_original_when_copy_fails posix posixMore MemFsMore.apiFull
           MemFsMore.api builtins roots (lit "/data/a.txt") (lit "/data/a.txt") (lit "/data")
           (lit "/data/Trash/a_2025-10-14T09-30-15-123Z.txt") false
           (MemFsMore.ENOSPC (lit "/data/Trash/a_2025-10-14T09-30-15-123Z.txt"))
           treeDisk treeDisk treeDisk); vm_compute; reflexivity.
Defined.

Lemma callTool_denies_path_outside_witness :
  callTool posix posixMore MemFs.api MemFsMore.api builtins roots packages 1
           (WriteFile (lit "/etc/passwd") (lit "x")) sampleDisk
  = Some (sampleDisk,
          {| text := lit "Error: Access denied - path outside allowed directories: /etc/passwd not in /data";
             isError := true |}).
Proof.
  rewrite (callTool_denies_path_outside posix posixMore MemFs.api MemFsMore.api builtins roots
             packages 0 (WriteFile (lit "/etc/passwd") (lit "x")) (lit "/etc/passwd") sampleDisk).
  - vm_compute. reflexivity.
  - reflexivity.
  - intros root Hin. apply list_elem_of_singleton in Hin. subst root. vm_compute. reflexivity.
Defined.

Lemma callTool_denies_destination_outside_witness :
  callTool posix posixMore MemFs.api MemFsMore.api builtins roots packages 1
           (CopyFile (lit "/data/a.txt") (lit "/etc/copy.txt")) sampleDisk
  = Some (sampleDisk,
          {| text := lit "Error: Access denied - path outside allowed directories: /etc/copy.txt not in /data";
             isError := true |}).
Proof.
  rewrite (callTool_denies_destination_outside posix posixMore MemFs.api MemFsMore.api builtins
             roots packages 1 (CopyFile (lit "/data/a.txt") (lit "/etc/copy.txt"))
             (lit "/data/a.txt") (lit "/etc/copy.txt") (lit "/data/a.txt") sampleDisk).
  - vm_compute. reflexivity.
  - reflexivity.
  - vm_compute. reflexivity.
  - intros root Hin. apply list_elem_of_singleton in Hin. subst root. vm_compute. reflexivity.
Defined.

(** ** The empty batch *)

(** X26: [applyFileEdits] with no edits and without [dryRun] still writes
    the file: what it writes is the content with every CR LF replaced by
    LF, which differs from the content of a file that has a CR LF, while the
    diff it returns is the patch of a text against itself. *)
Theorem empty_batch_rewrites_line_endings
    {St : Type} (F : FsApi St) (K : Packages) (filePath raw : str) (st st' : St) :
  fs_readFile F filePath st = Ok raw ->
  fs_writeFile F filePath (normalizeLineEndings raw) st = (st', Ok tt) ->
  let shown := normalizeLineEndings (normalizeLineEndings raw) in
  applyFileEdits F K filePath [] false st
  = (st', Ok (formatDiff (createTwoFilesPatch K filePath filePath shown shown
                                               (lit "original") (lit "modified"))))
  /\ (includes raw [Chr.CR; Chr.LF] = true -> normalizeLineEndings raw <> raw).
Proof.
  intros Hread Hwrite shown. split.
  - rewrite applyFileEdits_unfold, Hread. cbn [applyEdits]. cbv zeta. now rewrite Hwrite.
  - intros Hcrlf Heq. apply normalizeLineEndings_length in Hcrlf. rewrite Heq in Hcrlf. lia.
Qed.

Lemma empty_batch_rewrites_line_endings_witness :
  let crlf := <[lit "/data/a.txt" := File (lit "one" ++ [Chr.CR; Chr.LF] ++ lit "two")]> sampleDisk in
  let run := applyFileEdits MemFs.api packages (lit "/data/a.txt") [] false crlf in
  run.1 !! lit "/data/a.txt" = Some (File (twoLines "one" "two"))
  /\ run.2 = Ok (formatDiff (plainPatch (lit "/data/a.txt") (lit "/data/a.txt")
                               (twoLines "one" "two") (twoLines "one" "two")
                               (lit "original") (lit "modified"))).
Proof.
  intros crlf run.
  destruct (empty_batch_rewrites_line_endings MemFs.api packages (lit "/data/a.txt")
              (lit "one" ++ [Chr.CR; Chr.LF] ++ lit "two") crlf run.1) as [Hrun _].
  - vm_compute. reflexivity.
  - vm_compute. reflexivity.
  - unfold run. rewrite Hrun. split; vm_compute; reflexivity.
Defined.

(** ** Line endings of the written file *)

Lemma everyCRBeforeLF_normalized (s : str) :
  everyCRBeforeLF s = true -> Chr.CR ∉ normalizeLineEndings s.
Proof.
  induction s as [|c|c d rest IH1 IH2] using list_ind2.
  - intros _. apply not_elem_of_nil.
  - cbn. destruct (N.eqb_spec c Chr.CR) as [->|Hne]; [discriminate|].
    intros _ [?|Hin%not_elem_of_nil]%elem_of_cons; congruence.
  - rewrite normalizeLineEndings_cons2. cbn [everyCRBeforeLF].
    destruct (N.eqb_spec c Chr.CR) as [->|Hne]; cbn [andb].
    + intros [Hd [_ Hrest]%andb_prop]%andb_prop. rewrite Hd.
      intros [?|Hin]%elem_of_cons; [discriminate | exact (IH1 Hrest Hin)].
    + intros H [?|Hin]%elem_of_cons; [congruence | exact (IH2 H Hin)].
Qed.

Lemma getSubstitution_cons2 (matched before after : str) (c d : N) (rest : str) :
  getSubstitution matched before after (c :: d :: rest)
  = if (c =? Chr.dollar)%N then
      if (d =? Chr.dollar)%N then Chr.dollar :: getSubstitution matched before after rest
      else if (d =? Chr.amp)%N then matched ++ getSubstitution matched before after rest
      else if (d =? Chr.backtick)%N then before ++ getSubstitution matched before after rest
      else if (d =? Chr.quote)%N then after ++ getSubstitution matched before after rest
      else c :: getSubstitution matched before after (d :: rest)
    else c :: getSubstitution matched before after (d :: rest).
Proof. reflexivity. Qed.

(** Every code unit of a substitution comes from the matched text, the
    text around it or the replacement. *)
Lemma getSubstitution_elem (x : N) (matched before after replacement : str) :
  x ∈ getSubstitution matched before after replacement ->
  x ∈ matched \/ x ∈ before \/ x ∈ after \/ x ∈ replacement.
Proof.
  induction replacement as [|c|c d rest IH1 IH2] using list_ind2.
  - intros H. now apply not_elem_of_nil in H.
  - cbn. destruct (c =? Chr.dollar)%N; auto.
  - rewrite getSubstitution_cons2.
    assert (Hrest : x ∈ getSubstitution matched before after rest ->
                    x ∈ matched \/ x ∈ before \/ x ∈ after \/ x ∈ c :: d :: rest).
    { intros H. destruct (IH1 H) as [?|[?|[?|?]]]; auto.
      do 3 right. now do 2 apply list_elem_of_further. }
    assert (Hkeep : x ∈ c :: getSubstitution matched before after (d :: rest) ->
                    x ∈ matched \/ x ∈ before \/ x ∈ after \/ x ∈ c :: d :: rest).
    { intros [->|H]%elem_of_cons; [do 3 right; apply list_elem_of_here|].
      destruct (IH2 H) as [?|[?|[?|?]]]; auto.
      do 3 right. now apply list_elem_of_further. }
    destruct (N.eqb_spec c Chr.dollar) as [->|_]; [|exact Hkeep].
    destruct (d =? Chr.dollar)%N.
    { intros [->|H]%elem_of_cons; [do 3 right; apply list_elem_of_here | auto]. }
    destruct (d =? Chr.amp)%N; [intros [?|?]%elem_of_app; auto|].
    destruct (d =? Chr.backtick)%N; [intros [?|?]%elem_of_app; auto|].
    destruct (d =? Chr.quote)%N; [intros [?|?]%elem_of_app; auto|].
    exact Hkeep.
Qed.

Lemma split_elem (x sep : N) (s l : str) : l ∈ split sep s -> x ∈ l -> x ∈ s.
Proof.
  revert l. induction s as [|c s IH]; intros l; simpl.
  - intros ->%list_elem_of_singleton H. exact H.
  - destruct (c =? sep)%N.
    + intros [->|Hl]%elem_of_cons Hx; [now apply not_elem_of_nil in Hx|].
      apply list_elem_of_further. exact (IH l Hl Hx).
    + destruct (split sep s) as [|l0 ls].
      * intros ->%list_elem_of_singleton Hx. apply elem_of_cons in Hx as [->|Hx].
        -- apply list_elem_of_here.
        -- now apply not_elem_of_nil in Hx.
      * intros [->|Hl]%elem_of_cons Hx.
        -- apply elem_of_cons in Hx as [->|Hx]; [apply list_elem_of_here|].
           apply list_elem_of_further. exact (IH l0 (list_elem_of_here _ _) Hx).
        -- apply list_elem_of_further. exact (IH l (list_elem_of_further _ _ _ Hl) Hx).
Qed.

Lemma join_elem (x : N) (sep : str) (lines : list str) :
  x ∈ join sep lines -> x ∈ sep \/ exists l, l ∈ lines /\ x ∈ l.
Proof.
  induction lines as [|l lines IH]; [intros H; now apply not_elem_of_nil in H|].
  destruct lines as [|l' lines].
  - intros H. right. exists l. split; [apply list_elem_of_here | exact H].
  - rewrite join_cons by discriminate.
    intros [H|[H|H]%elem_of_app]%elem_of_app.
    + right. exists l. split; [apply list_elem_of_here | exact H].
    + now left.
    + destruct (IH H) as [?|[l0 [Hl0 Hx]]]; [now left|].
      right. exists l0. split; [now apply list_elem_of_further | exact Hx].
Qed.

Lemma reindent_elem (x : N) (originalIndent : str) (oldLines : list str) (j : nat) (line : str) :
  x ∈ reindent originalIndent oldLines j line ->
  x ∈ originalIndent \/ x = Chr.space \/ x ∈ line.
Proof.
  assert (Hfirst : x ∈ originalIndent ++ trimStart line ->
                   x ∈ originalIndent \/ x = Chr.space \/ x ∈ line).
  { intros [H|H]%elem_of_app; [now left | right; right; exact (trimStart_elem _ _ H)]. }
  destruct j as [|j]; simpl; [exact Hfirst|].
  destruct (nonEmpty _ && nonEmpty _); [|auto].
  intros [H|[H|H]%elem_of_app]%elem_of_app.
  - now left.
  - apply list_elem_of_In, repeat_spec in H. auto.
  - right; right. exact (trimStart_elem _ _ H).
Qed.

(** Every code unit of the text after an edit comes from the text before
    it or from the new text of the edit, or is one of the LF and the
    spaces that the fallback puts in. *)
Lemma applyEdit_elem (x : N) (modifiedContent content' : str) (edit : Edit) :
  applyEdit modifiedContent edit = Ok content' ->
  x ∈ content' ->
  x ∈ modifiedContent \/ x ∈ normalizeLineEndings (newText edit)
  \/ x = Chr.LF \/ x = Chr.space.
Proof.
  unfold applyEdit. destruct (includes _ _) eqn:Hinc.
  - intros [= <-]. unfold replace. unfold includes in Hinc.
    destruct (indexOf _ _) as [i|] eqn:Ei; [|discriminate].
    destruct (indexOf_split _ _ _ Ei) as [Hs _].
    set (before := take i modifiedContent) in *.
    set (after := drop (i + length (normalizeLineEndings (oldText edit))) modifiedContent) in *.
    assert (Hin : forall y, y ∈ before \/ y ∈ normalizeLineEndings (oldText edit) \/ y ∈ after ->
                            y ∈ modifiedContent).
    { intros y Hy. rewrite Hs. rewrite !elem_of_app. tauto. }
    intros [H|[H|H]%elem_of_app]%elem_of_app.
    + left. apply Hin. auto.
    + destruct (getSubstitution_elem _ _ _ _ _ H) as [?|[?|[?|?]]]; auto.
    + left. apply Hin. auto.
  - unfold lineWindowEdit.
    set (contentLines := split Chr.LF modifiedContent).
    set (oldLines := split Chr.LF (normalizeLineEndings (oldText edit))).
    destruct (findWindow contentLines oldLines) as [i|]; [|discriminate].
    intros [= <-] H.
    assert (Hline : forall l, l ∈ contentLines -> x ∈ l -> x ∈ modifiedContent).
    { intros l. apply split_elem. }
    apply join_elem in H as [H|[l [Hl Hx]]].
    { apply list_elem_of_singleton in H. auto. }
    unfold splice in Hl. apply elem_of_app in Hl as [Hl|[Hl|Hl]%elem_of_app].
    + left. apply (Hline l); [|exact Hx].
      rewrite <- (take_drop i contentLines). apply elem_of_app. now left.
    + unfold newLinesFor in Hl. apply elem_of_lookup_imap_1 in Hl as (j & line & -> & Hj).
      apply reindent_elem in Hx as [Hx|[Hx|Hx]]; [|auto|].
      * left. destruct (contentLines !! i) as [l0|] eqn:El0; simpl in Hx;
          [|now apply not_elem_of_nil in Hx].
        apply (Hline l0); [exact (list_elem_of_lookup_2 _ _ _ El0)|].
        exact (leadingWhitespace_elem _ _ Hx).
      * right; left. exact (split_elem _ _ _ _ (list_elem_of_lookup_2 _ _ _ Hj) Hx).
    + left. apply (Hline l); [|exact Hx].
      rewrite <- (take_drop (i + length oldLines) contentLines). apply elem_of_app. now right.
Qed.

Lemma applyEdits_elem (x : N) (edits : list Edit) :
  forall modifiedContent final,
    applyEdits modifiedContent edits = Ok final ->
    x ∈ final ->
    x ∈ modifiedContent
    \/ (exists edit, edit ∈ edits /\ x ∈ normalizeLineEndings (newText edit))
    \/ x = Chr.LF \/ x = Chr.space.
Proof.
  induction edits as [|edit edits IH]; intros modifiedContent final; cbn [applyEdits].
  - intros [= <-]. auto.
  - destruct (applyEdit modifiedContent edit) as [content'|e] eqn:E; [|discriminate].
    intros Hrest Hx. destruct (IH _ _ Hrest Hx) as [H|[[e [He H]]|H]].
    + destruct (applyEdit_elem _ _ _ _ E H) as [?|[?|?]]; auto.
      right; left. exists edit. split; [apply list_elem_of_here | assumption].
    + right; left. exists e. split; [now apply list_elem_of_further | exact H].
    + auto.
Qed.

Section LineEndingsWritten.
Context {St : Type}.
Variable P : PathApi.
Variable F : FsApi St.
Variable K : Packages.
Variable allowedDirectories : list str.

(** C10 (as amended): a successful [edit_file] without [dryRun] writes, to
    the validated path, the result of the batch on the file's content with
    every CR LF replaced by LF.  A CR LF of the file is an LF of the buffer
    the edits run on; a batch without edits writes the normalised content;
    a batch of one edit whose old text occurs verbatim writes the
    normalised content before and after the first occurrence unchanged
    around the replacement.  Whatever the batch, every code unit written
    comes from the normalised content or from the normalised new text of
    an edit, or is an LF or a space; so when every CR of the file and of
    each new text stands directly before an LF, the written content has no
    CR at all, in the regions no edit touches as well. *)
Theorem edit_file_writes_normalised
    (path : str) (edits : list Edit) (st st' : St) (out : str) :
  edit_file P F K allowedDirectories path edits false st = (st', Ok out) ->
  exists validPath original final,
    validatePath P F allowedDirectories path st = Ok validPath
    /\ fs_readFile F validPath st = Ok original
    /\ applyEdits (normalizeLineEndings original) edits = Ok final
    /\ fs_writeFile F validPath final st = (st', Ok tt)
    /\ (forall a b, original = a ++ Chr.CR :: Chr.LF :: b ->
          normalizeLineEndings original
          = normalizeLineEndings a ++ Chr.LF :: normalizeLineEndings b)
    /\ (edits = [] -> final = normalizeLineEndings original)
    /\ (forall edit, edits = [edit] ->
          includes (normalizeLineEndings original) (normalizeLineEndings (oldText edit)) = true ->
          exists before after,
            normalizeLineEndings original
            = before ++ normalizeLineEndings (oldText edit) ++ after
            /\ final = before
                       ++ getSubstitution (normalizeLineEndings (oldText edit)) before after
                                          (normalizeLineEndings (newText edit))
                       ++ after)
    /\ (forall x, x ∈ final ->
          x ∈ normalizeLineEndings original
          \/ (exists edit, edit ∈ edits /\ x ∈ normalizeLineEndings (newText edit))
          \/ x = Chr.LF \/ x = Chr.space)
    /\ (everyCRBeforeLF original = true ->
        Forall (fun edit => everyCRBeforeLF (newText edit) = true) edits ->
        Chr.CR ∉ final).
Proof.
  unfold edit_file, abind at 1, query at 1.
  destruct (validatePath P F allowedDirectories path st) as [validPath|e]; [|discriminate].
  rewrite applyFileEdits_unfold.
  destruct (fs_readFile F validPath st) as [original|e] eqn:Hread; [|discriminate].
  destruct (applyEdits (normalizeLineEndings original) edits) as [final|e] eqn:E;
    [|discriminate].
  cbv zeta.
  destruct (fs_writeFile F validPath final st) as [st'' [[]|e]] eqn:Ew; [|discriminate].
  intros [= <- _]. exists validPath, original, final.
  do 4 (split; [reflexivity || assumption|]). split_and!.
  - intros a b ->. apply normalizeLineEndings_crlf.
  - intros ->. simpl in E. congruence.
  - intros edit -> Hinc. cbn [applyEdits] in E. unfold applyEdit in E.
    rewrite Hinc in E. injection E as <-. unfold replace. unfold includes in Hinc.
    destruct (indexOf _ _) as [i|] eqn:Ei; [|discriminate].
    destruct (indexOf_split _ _ _ Ei) as [Hs _].
    eexists _, _. split; [exact Hs | reflexivity].
  - intros x. exact (applyEdits_elem x edits _ _ E).
  - intros Horiginal Hedits Hx.
    destruct (applyEdits_elem _ edits _ _ E Hx) as [H|[[edit [Hedit H]]|[H|H]]].
    + exact (everyCRBeforeLF_normalized _ Horiginal H).
    + rewrite Forall_forall in Hedits.
      exact (everyCRBeforeLF_normalized _ (Hedits edit Hedit) H).
    + discriminate H.
    + discriminate H.
Qed.

End LineEndingsWritten.

(** C10 as worded fails on the code: a line ending of the file can be
    written back as CR LF.  In [x CR CR LF y] the edit of [y] leaves the
    first line alone, and the file is written as [x CR LF z]; in
    [a CR LF b] the edit of [a] into [a CR] writes the file as it was. *)
Lemma line_ending_written_back_as_crlf :
  let run original edits :=
    edit_file posix MemFs.api packages roots (lit "/data/a.txt") edits false
              (<[lit "/data/a.txt" := File original]> sampleDisk) in
  let untouched := run (lit "x" ++ [Chr.CR; Chr.CR; Chr.LF] ++ lit "y")
                       [{| oldText := lit "y"; newText := lit "z" |}] in
  let beside := run (lit "a" ++ [Chr.CR; Chr.LF] ++ lit "b")
                    [{| oldText := lit "a"; newText := lit "a" ++ [Chr.CR] |}] in
  (exists out, untouched.2 = Ok out)
  /\ fs_readFile MemFs.api (lit "/data/a.txt") untouched.1
     = Ok (lit "x" ++ [Chr.CR; Chr.LF] ++ lit "z")
  /\ (exists out, beside.2 = Ok out)
  /\ fs_readFile MemFs.api (lit "/data/a.txt") beside.1
     = Ok (lit "a" ++ [Chr.CR; Chr.LF] ++ lit "b").
Proof.
  cbv zeta. split_and!; try by_run; eexists; vm_compute; reflexivity.
Qed.

(** A file with CR LF line endings, edited on its second line, is written
    back with LF line endings throughout. *)
Lemma edit_file_writes_normalised_witness :
  let crlf := <[lit "/data/a.txt" := File (lit "one" ++ [Chr.CR; Chr.LF] ++ lit "two"
                                             ++ [Chr.CR; Chr.LF])]> sampleDisk in
  let edits := [{| oldText := lit "two"; newText := lit "2" |}] in
  let run := edit_file posix MemFs.api packages roots (lit "/data/a.txt") edits false crlf in
  fs_readFile MemFs.api (lit "/data/a.txt") run.1 = Ok (lit "one" ++ [Chr.LF] ++ lit "2" ++ [Chr.LF])
  /\ exists validPath original final,
       validatePath posix MemFs.api roots (lit "/data/a.txt") crlf = Ok validPath
       /\ fs_readFile MemFs.api validPath crlf = Ok original
       /\ applyEdits (normalizeLineEndings original) edits = Ok final
       /\ fs_writeFile MemFs.api validPath final crlf = (run.1, Ok tt)
       /\ Chr.CR ∉ final.
Proof.
  intros crlf edits run.
  split; [vm_compute; reflexivity|].
  assert (Hrun : edit_file posix MemFs.api packages roots (lit "/data/a.txt") edits false crlf
                 = (run.1, Ok (match run.2 with Ok out => out | Throw _ => [] end)))
    by (vm_compute; reflexivity).
  destruct (edit_file_writes_normalised posix MemFs.api packages roots _ _ _ _ _ Hrun)
    as (validPath & original & final & Hv & Hr & He & Hw & _ & _ & _ & _ & Hcr).
  exists validPath, original, final. split_and!; try assumption.
  apply Hcr.
  - assert (Horiginal : original = lit "one" ++ [Chr.CR; Chr.LF] ++ lit "two"
                                   ++ [Chr.CR; Chr.LF]).
    { vm_compute in Hv. injection Hv as <-. vm_compute in Hr. now injection Hr as <-. }
    rewrite Horiginal. vm_compute. reflexivity.
  - repeat constructor.
Defined.
